(** * AesGcmEnhanced: nonce discipline and combined-frame codec

    A shallow embedding of [src/aes_gcm_iot.py] (class [AesGcmEnhanced]).
    The session object and the operating system's random source are
    threaded through a small state-and-exception monad; the AES-GCM
    primitive of the [cryptography] package is an interface
    ([AeadEngine]) whose laws are stated as hypotheses where needed. *)

From Stdlib Require Import String Strings.Byte DecimalString.
From Stdlib Require Import ZArith List Lia Bool Sorted.
Import ListNotations.
Local Open Scope Z_scope.

(** ** Python values *)

Definition bytes := list byte.

Definition len {A : Type} (b : list A) : Z := Z.of_nat (length b).

(** Exceptions raised by the session or coming out of the libraries it
    calls.  [InvalidTag] is [cryptography.exceptions.InvalidTag], the
    engine's authentication failure. *)
Inductive exn : Type :=
| ValueError (msg : string)
| TypeError
| StructError
| InvalidTag
| OverflowError.

Definition outcome (A : Type) : Type := (exn + A)%type.

Module Py.

(** Truthiness of an optional [bytes] argument ([if associated_data:]). *)
Definition truthy (a : option bytes) : bool :=
  match a with
  | Some (_ :: _) => true
  | _ => false
  end.

(** Bound of a slice: negative indices count from the end, and the
    result is clamped to [0, n]. *)
Definition bound (n i : Z) : Z :=
  if i <? 0 then Z.max 0 (n + i) else Z.min i n.

(** [b[lo:hi]]; an omitted bound is [None]. *)
Definition slice {A : Type} (b : list A) (lo hi : option Z) : list A :=
  let n := len b in
  let l := match lo with None => 0 | Some i => bound n i end in
  let h := match hi with None => n | Some i => bound n i end in
  firstn (Z.to_nat (h - l)) (skipn (Z.to_nat l) b).

(** [b[lo:hi] = v] on a [bytearray]. *)
Definition slice_assign {A : Type} (b : list A) (lo hi : option Z) (v : list A)
  : list A :=
  let n := len b in
  let l := match lo with None => 0 | Some i => bound n i end in
  let h := match hi with None => n | Some i => bound n i end in
  firstn (Z.to_nat l) b ++ v ++ skipn (Z.to_nat (Z.max l h)) b.

(** [bytearray(n)] *)
Definition bytearray (n : Z) : bytes := repeat x00 (Z.to_nat n).

(** Whether an integer converts to a C [Py_ssize_t] (64-bit build). *)
Definition fits_ssize_t (n : Z) : bool := (- 2 ^ 63 <=? n) && (n <=? 2 ^ 63 - 1).

(** [str(n)] for an integer inside an f-string. *)
Definition str (n : Z) : string := NilZero.string_of_int (Z.to_int n).

End Py.

(** ** [struct]: the ['>I'] format *)

Module struct.

Definition byte_of_Z (z : Z) : byte :=
  match Byte.of_N (Z.to_N z) with
  | Some b => b
  | None => x00
  end.

Definition Z_of_byte (b : byte) : Z := Z.of_N (Byte.to_N b).

(** Big-endian unsigned 32-bit encoding: most significant byte first. *)
Definition pack_BE_I (v : Z) : bytes :=
  [ byte_of_Z (v / 2 ^ 24 mod 256);
    byte_of_Z (v / 2 ^ 16 mod 256);
    byte_of_Z (v / 2 ^ 8 mod 256);
    byte_of_Z (v mod 256) ].

(** Big-endian reading of a byte string as an unsigned integer. *)
Definition unpack_BE (bs : bytes) : Z :=
  fold_left (fun acc b => acc * 256 + Z_of_byte b) bs 0.

(** [struct.pack_into('>I', buf, offset, v)]: [struct.error] when the
    value does not fit 32 bits or the buffer has no room at [offset]. *)
Definition pack_into_BE_I (buf : bytes) (offset : Z) (v : Z) : outcome bytes :=
  if (v <? 0) || (2 ^ 32 <=? v) then inl StructError
  else if (offset <? 0) || (len buf <? offset + 4) then inl StructError
  else inr (firstn (Z.to_nat offset) buf ++ pack_BE_I v
              ++ skipn (Z.to_nat (offset + 4)) buf).

End struct.

(** ** The random source, [os.urandom] *)

(** The operating system's entropy pool, seen as an unbounded stream of
    bytes of which [cursor] have been consumed. *)
Record Entropy : Type := mkEntropy {
  source : nat -> byte;
  cursor : nat
}.

Definition draw (n : nat) (e : Entropy) : bytes :=
  map (source e) (seq (cursor e) n).

Definition advance (n : nat) (e : Entropy) : Entropy :=
  {| source := source e; cursor := cursor e + n |}.

(** ** The session object *)

Record AesGcmEnhanced : Type := mkSession {
  key_size : Z;
  key_bytes : Z;
  key : option bytes;
  persistent_iv : bool;
  _iv_counter : Z;
  _max_iv_counter : Z;
  _iv_buffer : bytes;
  _initialized : bool
}.

Definition with_key (k : option bytes) (s : AesGcmEnhanced) : AesGcmEnhanced :=
  {| key_size := key_size s; key_bytes := key_bytes s; key := k;
     persistent_iv := persistent_iv s; _iv_counter := _iv_counter s;
     _max_iv_counter := _max_iv_counter s; _iv_buffer := _iv_buffer s;
     _initialized := _initialized s |}.

Definition with_iv_counter (c : Z) (s : AesGcmEnhanced) : AesGcmEnhanced :=
  {| key_size := key_size s; key_bytes := key_bytes s; key := key s;
     persistent_iv := persistent_iv s; _iv_counter := c;
     _max_iv_counter := _max_iv_counter s; _iv_buffer := _iv_buffer s;
     _initialized := _initialized s |}.

Definition with_iv_buffer (b : bytes) (s : AesGcmEnhanced) : AesGcmEnhanced :=
  {| key_size := key_size s; key_bytes := key_bytes s; key := key s;
     persistent_iv := persistent_iv s; _iv_counter := _iv_counter s;
     _max_iv_counter := _max_iv_counter s; _iv_buffer := b;
     _initialized := _initialized s |}.

Definition with_initialized (i : bool) (s : AesGcmEnhanced) : AesGcmEnhanced :=
  {| key_size := key_size s; key_bytes := key_bytes s; key := key s;
     persistent_iv := persistent_iv s; _iv_counter := _iv_counter s;
     _max_iv_counter := _max_iv_counter s; _iv_buffer := _iv_buffer s;
     _initialized := i |}.

(** ** State and exceptions *)

Record Heap : Type := mkHeap {
  self : AesGcmEnhanced;
  os : Entropy
}.

(** A computation reads and mutates the heap and either returns or
    raises; mutations made before a [raise] stay. *)
Definition M (A : Type) : Type := Heap -> outcome A * Heap.

Definition ret {A : Type} (a : A) : M A := fun h => (inr a, h).

Definition raise {A : Type} (e : exn) : M A := fun h => (inl e, h).

Definition bind {A B : Type} (c : M A) (k : A -> M B) : M B :=
  fun h =>
    match c h with
    | (inl e, h') => (inl e, h')
    | (inr a, h') => k a h'
    end.

Declare Scope py_scope.
Delimit Scope py_scope with py.
Notation "x <- c ;; k" := (bind c (fun x => k))
  (at level 61, c at next level, right associativity) : py_scope.
Notation "' pat <- c ;; k" :=
  (bind c (fun x => match x with pat => k end))
  (at level 61, pat pattern, c at next level, right associativity) : py_scope.
Notation "c ;; k" := (bind c (fun _ => k))
  (at level 61, right associativity) : py_scope.
Local Open Scope py_scope.

Definition get_self : M AesGcmEnhanced := fun h => (inr (self h), h).

Definition update (f : AesGcmEnhanced -> AesGcmEnhanced) : M unit :=
  fun h => (inr tt, {| self := f (self h); os := os h |}).

Definition lift {A : Type} (r : outcome A) : M A := fun h => (r, h).

Definition when (b : bool) (c : M unit) : M unit := if b then c else ret tt.

(** [os.urandom(n)]: the size is first converted to [Py_ssize_t]
    ([OverflowError] when it does not fit), then checked for sign. *)
Definition urandom (n : Z) : M bytes :=
  fun h =>
    if negb (Py.fits_ssize_t n) then (inl OverflowError, h)
    else if n <? 0 then (inl (ValueError "negative argument not allowed"), h)
    else (inr (draw (Z.to_nat n) (os h)),
          {| self := self h; os := advance (Z.to_nat n) (os h) |}).

(** ** The AEAD engine

    [Cipher(algorithms.AES(key), modes.GCM(iv[, tag]))] followed by
    [authenticate_additional_data] (when it is called: [Some aad]),
    [update] and [finalize]. *)
Class AeadEngine : Type := {
  gcm_encrypt : bytes -> bytes -> option bytes -> bytes -> outcome (bytes * bytes);
  gcm_decrypt : bytes -> bytes -> bytes -> option bytes -> bytes -> outcome bytes
}.

(** ** Methods of [AesGcmEnhanced] *)

Definition __init__ (key_size : Z) (persistent_iv : bool) : AesGcmEnhanced :=
  {| key_size := key_size;
     key_bytes := key_size / 8;
     key := None;
     persistent_iv := persistent_iv;
     _iv_counter := 0;
     _max_iv_counter := 2 ^ 32 - 1;
     _iv_buffer := Py.bytearray 12;
     _initialized := false |}.

Definition generate_key : M bytes :=
  s <- get_self ;;
  k <- urandom (key_bytes s) ;;
  update (with_key (Some k)) ;;
  ret k.

Definition key_length_message (s : AesGcmEnhanced) : string :=
  ("Key must be exactly " ++ Py.str (key_bytes s) ++ " bytes for AES-"
     ++ Py.str (key_size s))%string.

Definition set_key (k : bytes) : M unit :=
  s <- get_self ;;
  if negb (len k =? key_bytes s) then raise (ValueError (key_length_message s))
  else update (with_key (Some k)).

Definition _init_iv_buffer : M unit :=
  s <- get_self ;;
  (if persistent_iv s then
     random_prefix <- urandom 8 ;;
     update (fun s => with_iv_buffer
                        (Py.slice_assign (_iv_buffer s) (Some 0) (Some 8) random_prefix) s) ;;
     update (with_iv_counter 0)
   else ret tt) ;;
  update (with_initialized true).

Definition generate_iv : M bytes :=
  s <- get_self ;;
  when (negb (_initialized s)) _init_iv_buffer ;;
  s <- get_self ;;
  if negb (persistent_iv s) then
    random_iv <- urandom 12 ;;
    update (fun s => with_iv_buffer
                       (Py.slice_assign (_iv_buffer s) None None random_iv) s) ;;
    s <- get_self ;;
    ret (_iv_buffer s)
  else
    when (_max_iv_counter s <=? _iv_counter s) _init_iv_buffer ;;
    update (fun s => with_iv_counter (_iv_counter s + 1) s) ;;
    s <- get_self ;;
    buf <- lift (struct.pack_into_BE_I (_iv_buffer s) 8 (_iv_counter s)) ;;
    update (with_iv_buffer buf) ;;
    ret buf.

Definition no_key_message : string :=
  "No key set. Call set_key() or generate_key() first.".

Section Engine.

Context {engine : AeadEngine}.

Definition encrypt (plaintext : bytes) (associated_data : option bytes)
  : M (bytes * bytes * bytes) :=
  s <- get_self ;;
  when (match key s with None => true | Some _ => false end)
       (generate_key ;; ret tt) ;;
  iv <- generate_iv ;;
  s <- get_self ;;
  match key s with
  | None => raise TypeError
  | Some k =>
      let aad := if Py.truthy associated_data then associated_data else None in
      '(ciphertext, tag) <- lift (gcm_encrypt k iv aad plaintext) ;;
      ret (iv, ciphertext, tag)
  end.

Definition decrypt (iv ciphertext tag : bytes) (associated_data : option bytes)
  : M bytes :=
  s <- get_self ;;
  match key s with
  | None => raise (ValueError no_key_message)
  | Some k =>
      let aad := if Py.truthy associated_data then associated_data else None in
      lift (gcm_decrypt k iv tag aad ciphertext)
  end.

Definition encrypt_combined (plaintext : bytes) (associated_data : option bytes)
  : M (bytes * Z * Z) :=
  '(iv, ciphertext, tag) <- encrypt plaintext associated_data ;;
  let total_size := len iv + len ciphertext + len tag in
  let result := Py.bytearray total_size in
  let result := Py.slice_assign result (Some 0) (Some (len iv)) iv in
  let result := Py.slice_assign result (Some (len iv))
                  (Some (len iv + len ciphertext)) ciphertext in
  let result := Py.slice_assign result (Some (len iv + len ciphertext)) None tag in
  ret (result, len iv, len tag).

Definition decrypt_combined (combined_data : bytes) (iv_size tag_size : Z)
  (associated_data : option bytes) : M bytes :=
  let iv := Py.slice combined_data None (Some iv_size) in
  let tag := Py.slice combined_data (Some (- tag_size)) None in
  let ciphertext := Py.slice combined_data (Some iv_size) (Some (- tag_size)) in
  decrypt iv ciphertext tag associated_data.

End Engine.

(** ** A reference engine

    A stand-in for AES-GCM with the same interface and the same argument
    checks (key of 16, 24 or 32 bytes, nonce of 8 to 128 bytes, tag of at
    least 16 bytes).  It is not a cipher: it only serves to run the
    session on concrete inputs and to show that the engine laws assumed
    below can be met. *)
Module Reference.

Definition valid_key (k : bytes) : bool :=
  (len k =? 16) || (len k =? 24) || (len k =? 32).

Definition valid_iv (iv : bytes) : bool :=
  (8 <=? len iv) && (len iv <=? 128).

Definition checksum (bs : bytes) : byte :=
  struct.byte_of_Z (fold_left (fun acc b => (acc + struct.Z_of_byte b) mod 256) bs 0).

Definition mac (k iv : bytes) (aad : option bytes) (ct : bytes) : bytes :=
  let a := match aad with Some a => a | None => [] end in
  repeat (checksum (k ++ iv ++ a ++ ct)) 16.

Definition enc (k iv : bytes) (aad : option bytes) (pt : bytes)
  : outcome (bytes * bytes) :=
  if negb (valid_key k) then inl (ValueError "Invalid key size")
  else if negb (valid_iv iv) then inl (ValueError "Invalid nonce size")
  else inr (rev pt, mac k iv aad (rev pt)).

Definition dec (k iv tag : bytes) (aad : option bytes) (ct : bytes)
  : outcome bytes :=
  if negb (valid_key k) then inl (ValueError "Invalid key size")
  else if negb (valid_iv iv) then inl (ValueError "Invalid nonce size")
  else if len tag <? 16 then inl (ValueError "Authentication tag too short")
  else if list_eq_dec byte_eq_dec tag (mac k iv aad ct) then inr (rev ct)
  else inl InvalidTag.

#[export] Instance engine : AeadEngine := {| gcm_encrypt := enc; gcm_decrypt := dec |}.

(** An entropy source whose [i]-th byte is [i mod 256]. *)
Definition ramp : Entropy :=
  {| source := fun i => struct.byte_of_Z (Z.of_nat i mod 256); cursor := 0 |}.

(** An entropy source that only yields zero bytes. *)
Definition stuck : Entropy := {| source := fun _ => x00; cursor := 0 |}.

End Reference.

Definition fresh (key_size : Z) (persistent_iv : bool) (e : Entropy) : Heap :=
  {| self := __init__ key_size persistent_iv; os := e |}.

(** Sessions used in the examples. *)
Module Sample.

(** An unused session, persistent strategy, AES-128. *)
Definition unused : Heap := fresh 128 true Reference.ramp.

(** The same after [set_key] with sixteen zero bytes. *)
Definition keyed : Heap := snd (set_key (repeat x00 16) unused).

(** The same after a first nonce request. *)
Definition started : Heap := snd (generate_iv unused).

(** A session whose counter has reached its maximum. *)
Definition exhausted : Heap :=
  {| self := {| key_size := 128; key_bytes := 16; key := None;
                persistent_iv := true;
                _iv_counter := 2 ^ 32 - 1;
                _max_iv_counter := 2 ^ 32 - 1;
                _iv_buffer := repeat x00 8 ++ repeat xff 4;
                _initialized := true |};
     os := advance 8 Reference.ramp |}.

(** A 20-byte frame, shorter than a nonce and a tag together. *)
Definition short_frame : bytes := repeat x00 12 ++ repeat x01 8.

End Sample.

(** ** Sequences of calls *)

(** [n] sequential calls of the same method, results in call order. *)
Fixpoint calls {A : Type} (n : nat) (c : M A) : M (list A) :=
  match n with
  | O => ret []
  | S n' => x <- c ;; xs <- calls n' c ;; ret (x :: xs)
  end.

(** What a caller may do with a session. *)
Inductive call : Type :=
| GenerateKey
| SetKey (k : bytes)
| Encrypt (plaintext : bytes) (associated_data : option bytes)
| Decrypt (iv ciphertext tag : bytes) (associated_data : option bytes).

Section Trace.

Context {engine : AeadEngine}.

(** One call; an exception is caught by the caller and the session
    lives on.  The result lists the (key, nonce) pair under which a
    ciphertext was produced, if one was. *)
Definition step (c : call) (h : Heap) : list (bytes * bytes) * Heap :=
  match c with
  | GenerateKey => ([], snd (generate_key h))
  | SetKey k => ([], snd (set_key k h))
  | Encrypt p a =>
      match encrypt p a h with
      | (inr (iv, _, _), h') =>
          (match key (self h') with Some k => [(k, iv)] | None => [] end, h')
      | (inl _, h') => ([], h')
      end
  | Decrypt iv c t a => ([], snd (decrypt iv c t a h))
  end.

Fixpoint run (cs : list call) (h : Heap) : list (bytes * bytes) * Heap :=
  match cs with
  | [] => ([], h)
  | c :: cs' =>
      let (used, h1) := step c h in
      let (rest, h2) := run cs' h1 in
      (used ++ rest, h2)
  end.

End Trace.

Definition is_encrypt (c : call) : bool :=
  match c with Encrypt _ _ => true | _ => false end.

(** Number of [encrypt] calls in a sequence. *)
Definition encrypts (cs : list call) : Z := len (filter is_encrypt cs).

(** ** Invariants and observations *)

(** The state invariant established by [__init__]. *)
Definition wf (s : AesGcmEnhanced) : Prop :=
  _max_iv_counter s = 2 ^ 32 - 1 /\
  0 <= _iv_counter s <= _max_iv_counter s /\
  length (_iv_buffer s) = 12%nat.

(** The last counter value emitted since the nonce state was set up. *)
Definition emitted (s : AesGcmEnhanced) : Z :=
  if _initialized s then _iv_counter s else 0.

(** Whether the next nonce request sets the nonce state up (again). *)
Definition reinit_due (s : AesGcmEnhanced) : bool :=
  negb (_initialized s) || (_max_iv_counter s <=? _iv_counter s).

(** The two parts of a 12-byte nonce. *)
Definition prefix_of (nonce : bytes) : bytes := firstn 8 nonce.
Definition counter_of (nonce : bytes) : Z := struct.unpack_BE (skipn 8 nonce).

(** The nonce state: everything [generate_iv] reads or writes. *)
Definition nonce_state (s : AesGcmEnhanced) : bool * bytes * Z :=
  (_initialized s, _iv_buffer s, _iv_counter s).

(** The configuration: what only [__init__] writes. *)
Definition config (s : AesGcmEnhanced) : Z * Z * bool * Z :=
  (key_size s, key_bytes s, persistent_iv s, _max_iv_counter s).

(** ** [aes_gcm.py]: the stand-alone functions *)

Module aes_gcm.

Section Engine.

Context {engine : AeadEngine}.

(** [encrypt(plaintext, key=None, associated_data=None)] *)
Definition encrypt (plaintext : bytes) (key : option bytes)
  (associated_data : option bytes) : M (bytes * bytes * bytes * bytes) :=
  key <- match key with
         | None => urandom 32
         | Some k => ret k
         end ;;
  iv <- urandom 12 ;;
  let aad := if Py.truthy associated_data then associated_data else None in
  '(ciphertext, tag) <- lift (gcm_encrypt key iv aad plaintext) ;;
  ret (key, iv, ciphertext, tag).

(** [decrypt(iv, ciphertext, tag, key, associated_data=None)] *)
Definition decrypt (iv ciphertext tag key : bytes)
  (associated_data : option bytes) : M bytes :=
  let aad := if Py.truthy associated_data then associated_data else None in
  lift (gcm_decrypt key iv tag aad ciphertext).

End Engine.

End aes_gcm.

(** ** Loops over data *)

(** [for x in xs: body(x)], the results in iteration order; an exception
    ends the loop. *)
Fixpoint for_each {A B : Type} (xs : list A) (body : A -> M B) : M (list B) :=
  match xs with
  | [] => ret []
  | x :: xs' => y <- body x ;; ys <- for_each xs' body ;; ret (y :: ys)
  end.

(** The nonce of a triple returned by [encrypt]. *)
Definition nonce_of (r : bytes * bytes * bytes) : bytes := fst (fst r).

(** The prefix the next persistent nonce will carry. *)
Definition next_prefix (h : Heap) : bytes :=
  if reinit_due (self h) then draw 8 (os h) else prefix_of (_iv_buffer (self h)).

(** Reading a field of an updated record. *)
Ltac fields :=
  cbn [self os key_size key_bytes key persistent_iv _iv_counter _max_iv_counter
       _iv_buffer _initialized with_key with_iv_counter with_iv_buffer
       with_initialized fst snd nonce_state config emitted] in *.

(** * Properties *)

(** ** Byte strings *)

Lemma len_app {A : Type} (a b : list A) : len (a ++ b) = len a + len b.
Proof. unfold len. rewrite length_app. lia. Qed.

Lemma len_nonneg {A : Type} (a : list A) : 0 <= len a.
Proof. unfold len. lia. Qed.

Lemma Z_of_byte_range (b : byte) : 0 <= struct.Z_of_byte b < 256.
Proof.
  unfold struct.Z_of_byte. pose proof (Byte.to_N_bounded b). lia.
Qed.

Lemma Z_of_byte_of_Z (z : Z) :
  0 <= z < 256 -> struct.Z_of_byte (struct.byte_of_Z z) = z.
Proof.
  intros Hz. unfold struct.Z_of_byte, struct.byte_of_Z.
  destruct (Byte.of_N (Z.to_N z)) as [b|] eqn:E.
  - apply Byte.to_of_N in E. rewrite E. lia.
  - apply Byte.of_N_None_iff in E. lia.
Qed.

Lemma unpack_pack (v : Z) :
  0 <= v < 2 ^ 32 -> struct.unpack_BE (struct.pack_BE_I v) = v.
Proof.
  intros Hv. unfold struct.unpack_BE, struct.pack_BE_I. cbn [fold_left].
  rewrite !Z_of_byte_of_Z by (apply Z.mod_pos_bound; lia).
  change (2 ^ 24) with (256 * (256 * 256)).
  change (2 ^ 16) with (256 * 256).
  change (2 ^ 8) with 256.
  rewrite <- !Z.div_div by lia.
  pose proof (Z.div_mod v 256 ltac:(lia)) as H0.
  pose proof (Z.div_mod (v / 256) 256 ltac:(lia)) as H1.
  pose proof (Z.div_mod (v / 256 / 256) 256 ltac:(lia)) as H2.
  assert (H3 : v / 256 / 256 / 256 mod 256 = v / 256 / 256 / 256).
  { apply Z.mod_small. split.
    - repeat apply Z.div_pos; lia.
    - repeat (apply Z.div_lt_upper_bound; [lia|]). lia. }
  lia.
Qed.

Lemma pack_length (v : Z) : length (struct.pack_BE_I v) = 4%nat.
Proof. reflexivity. Qed.

Lemma pack_inj (v w : Z) :
  0 <= v < 2 ^ 32 -> 0 <= w < 2 ^ 32 ->
  struct.pack_BE_I v = struct.pack_BE_I w -> v = w.
Proof.
  intros Hv Hw E. rewrite <- (unpack_pack v Hv), <- (unpack_pack w Hw).
  now rewrite E.
Qed.

Lemma counter_of_app (p : bytes) (v : Z) :
  length p = 8%nat -> 0 <= v < 2 ^ 32 ->
  counter_of (p ++ struct.pack_BE_I v) = v.
Proof.
  intros Hp Hv. unfold counter_of.
  rewrite skipn_app, Hp, Nat.sub_diag, skipn_all2 by lia.
  cbn [app skipn]. now apply unpack_pack.
Qed.

Lemma prefix_of_app (p q : bytes) : length p = 8%nat -> prefix_of (p ++ q) = p.
Proof.
  intros Hp. unfold prefix_of.
  rewrite firstn_app, Hp, Nat.sub_diag, firstn_all2 by lia.
  cbn [firstn]. apply app_nil_r.
Qed.

Lemma draw_length (n : nat) (e : Entropy) : length (draw n e) = n.
Proof. unfold draw. now rewrite length_map, length_seq. Qed.

(** ** Buffers *)

#[local] Arguments struct.pack_into_BE_I : simpl never.
#[local] Arguments struct.pack_BE_I : simpl never.
#[local] Arguments Py.slice_assign : simpl never.
#[local] Arguments Py.slice : simpl never.
#[local] Arguments draw : simpl never.
#[local] Arguments advance : simpl never.
#[local] Arguments Z.to_nat : simpl never.
#[local] Arguments Z.pow : simpl never.
#[local] Arguments Z.sub : simpl never.
#[local] Arguments Z.leb : simpl never.
#[local] Arguments Z.ltb : simpl never.
#[local] Arguments Z.add : simpl never.

Lemma slice_assign_prefix (buf p : bytes) :
  length buf = 12%nat ->
  Py.slice_assign buf (Some 0) (Some 8) p = p ++ skipn 8 buf.
Proof.
  intros Hb. unfold Py.slice_assign, Py.bound, len. rewrite Hb. reflexivity.
Qed.

Lemma slice_assign_whole {A : Type} (buf v : list A) :
  Py.slice_assign buf None None v = v.
Proof.
  unfold Py.slice_assign.
  rewrite Z.max_r by apply len_nonneg.
  unfold len. rewrite Nat2Z.id, skipn_all. cbn [Z.to_nat firstn app].
  apply app_nil_r.
Qed.

Lemma pack_into_tail (buf : bytes) (v : Z) :
  length buf = 12%nat -> 0 <= v < 2 ^ 32 ->
  struct.pack_into_BE_I buf 8 v = inr (firstn 8 buf ++ struct.pack_BE_I v).
Proof.
  intros Hb Hv. unfold struct.pack_into_BE_I, len. rewrite Hb.
  destruct (Z.ltb_spec v 0); [lia|].
  destruct (Z.leb_spec (2 ^ 32) v); [lia|].
  cbn [orb]. change (8 <? 0) with false. change (Z.of_nat 12 <? 8 + 4) with false.
  cbn [orb]. change (Z.to_nat 8) with 8%nat. change (Z.to_nat (8 + 4)) with 12%nat.
  rewrite skipn_all2 by lia. now rewrite app_nil_r.
Qed.

(** ** Nonce generation, persistent strategy *)

Lemma init_iv_buffer_persistent (h : Heap) :
  length (_iv_buffer (self h)) = 12%nat -> persistent_iv (self h) = true ->
  _init_iv_buffer h =
    (inr tt,
     {| self := with_initialized true
                  (with_iv_counter 0
                     (with_iv_buffer (draw 8 (os h) ++ skipn 8 (_iv_buffer (self h)))
                        (self h)));
        os := advance 8 (os h) |}).
Proof.
  intros Hb Hp.
  unfold _init_iv_buffer, bind, get_self, update, urandom, ret. rewrite Hp.
  change (negb (Py.fits_ssize_t 8)) with false.
  change (8 <? 0) with false. change (Z.to_nat 8) with 8%nat. cbn.
  now rewrite slice_assign_prefix.
Qed.

Lemma generate_iv_persistent (h : Heap) :
  wf (self h) -> persistent_iv (self h) = true ->
  let s := self h in
  let p := if reinit_due s then draw 8 (os h) else firstn 8 (_iv_buffer s) in
  let c := (if reinit_due s then 0 else _iv_counter s) + 1 in
  generate_iv h =
    (inr (p ++ struct.pack_BE_I c),
     {| self := with_initialized true
                  (with_iv_buffer (p ++ struct.pack_BE_I c) (with_iv_counter c s));
        os := if reinit_due s then advance 8 (os h) else os h |}).
Proof.
  intros (Hmx & Hc & Hb) Hp.
  assert (Hfresh : forall v, 0 <= v < 2 ^ 32 ->
            struct.pack_into_BE_I (draw 8 (os h) ++ skipn 8 (_iv_buffer (self h))) 8 v
            = inr (draw 8 (os h) ++ struct.pack_BE_I v)).
  { intros v Hv. rewrite pack_into_tail; [|now rewrite length_app, draw_length, length_skipn, Hb|lia].
    rewrite firstn_app, draw_length, firstn_all2 by (rewrite draw_length; lia).
    cbn [Nat.sub firstn]. now rewrite app_nil_r. }
  unfold reinit_due. cbv zeta.
  unfold generate_iv, bind, get_self, when.
  destruct (_initialized (self h)) eqn:Hini; cbn [negb orb].
  - unfold ret at 1. cbn [self]. rewrite Hp. cbn [negb].
    destruct (Z.leb_spec (_max_iv_counter (self h)) (_iv_counter (self h))) as [Hex|Hok].
    + rewrite init_iv_buffer_persistent by assumption.
      unfold update, lift, ret. cbn. rewrite Hfresh by lia.
      destruct h as [[] ?]; cbn in *. subst. reflexivity.
    + unfold update, lift, ret. cbn.
      rewrite pack_into_tail by (assumption || lia).
      destruct h as [[] ?]; cbn in *. subst. reflexivity.
  - rewrite init_iv_buffer_persistent by assumption. cbn. rewrite Hp. cbn [negb].
    rewrite Hmx. change (2 ^ 32 - 1 <=? 0) with false.
    unfold update, lift, ret. cbn. rewrite Hfresh by lia.
    destruct h as [[] ?]; cbn in *. subst. reflexivity.
Qed.

Lemma wf_transfer (s s' : AesGcmEnhanced) :
  nonce_state s' = nonce_state s -> config s' = config s -> wf s -> wf s'.
Proof.
  unfold nonce_state, config, wf. intros Hn Hc. inversion Hn. inversion Hc.
  congruence.
Qed.

Lemma emitted_transfer (s s' : AesGcmEnhanced) :
  nonce_state s' = nonce_state s -> emitted s' = emitted s.
Proof. unfold nonce_state, emitted. intros Hn. inversion Hn. congruence. Qed.

Lemma wf_init (key_size : Z) (persistent_iv : bool) :
  wf (__init__ key_size persistent_iv).
Proof. unfold wf. cbn. repeat split; lia. Qed.

(** A nonce request below exhaustion: the counter goes up by one. *)
Lemma generate_iv_next (h : Heap) :
  wf (self h) -> persistent_iv (self h) = true -> emitted (self h) < 2 ^ 32 - 1 ->
  exists iv h',
    generate_iv h = (inr iv, h') /\
    length iv = 12%nat /\
    counter_of iv = emitted (self h) + 1 /\
    emitted (self h') = emitted (self h) + 1 /\
    wf (self h') /\ config (self h') = config (self h) /\
    key (self h') = key (self h) /\
    prefix_of (_iv_buffer (self h')) = prefix_of iv /\
    (_initialized (self h) = true ->
       prefix_of iv = prefix_of (_iv_buffer (self h)) /\ os h' = os h).
Proof.
  intros Hwf Hp Hlt. pose proof (generate_iv_persistent h Hwf Hp) as E.
  cbv zeta in E. destruct Hwf as (Hmx & Hc & Hb).
  unfold emitted, reinit_due in *.
  destruct (_initialized (self h)) eqn:Hini; cbn [negb orb] in E.
  - destruct (Z.leb_spec (_max_iv_counter (self h)) (_iv_counter (self h))); [lia|].
    do 2 eexists. split; [exact E|].
    assert (Hl : length (firstn 8 (_iv_buffer (self h))) = 8%nat)
      by (rewrite length_firstn; lia).
    unfold wf. fields.
    rewrite prefix_of_app, counter_of_app, length_app, pack_length by (assumption || lia).
    rewrite Hl. repeat split; try lia.
  - do 2 eexists. split; [exact E|].
    unfold wf. fields.
    rewrite prefix_of_app, counter_of_app, length_app, pack_length, draw_length
      by (apply draw_length || lia).
    repeat split; try lia.
Qed.

(** ** Nonce generation, random strategy *)

Lemma generate_iv_random (h : Heap) :
  persistent_iv (self h) = false ->
  generate_iv h =
    (inr (draw 12 (os h)),
     {| self := with_iv_buffer (draw 12 (os h)) (with_initialized true (self h));
        os := advance 12 (os h) |}).
Proof.
  intros Hp.
  unfold generate_iv, _init_iv_buffer, bind, get_self, when, update, urandom, ret.
  change (negb (Py.fits_ssize_t 12)) with false.
  change (12 <? 0) with false. change (Z.to_nat 12) with 12%nat.
  destruct (_initialized (self h)) eqn:Hini; cbn; rewrite Hp; cbn;
    rewrite ?Hp; cbn; rewrite slice_assign_whole;
    destruct h as [[] ?]; cbn in *; subst; reflexivity.
Qed.

(** ** Key management *)

Lemma generate_key_state (h : Heap) :
  nonce_state (self (snd (generate_key h))) = nonce_state (self h) /\
  config (self (snd (generate_key h))) = config (self h).
Proof.
  unfold generate_key, bind, get_self, urandom, update, ret.
  destruct (Py.fits_ssize_t (key_bytes (self h))); cbn [negb]; [|cbn; auto].
  destruct (key_bytes (self h) <? 0); cbn; auto.
Qed.

Lemma set_key_state (k : bytes) (h : Heap) :
  nonce_state (self (snd (set_key k h))) = nonce_state (self h) /\
  config (self (snd (set_key k h))) = config (self h).
Proof.
  unfold set_key, bind, get_self, raise, update.
  destruct (len k =? key_bytes (self h)); cbn; auto.
Qed.

Lemma fits_ssize_t_iff (n : Z) :
  Py.fits_ssize_t n = true <-> - 2 ^ 63 <= n <= 2 ^ 63 - 1.
Proof.
  unfold Py.fits_ssize_t. rewrite andb_true_iff, !Z.leb_le. reflexivity.
Qed.

Lemma generate_key_ok (h : Heap) :
  0 <= key_bytes (self h) <= 2 ^ 63 - 1 ->
  exists k h',
    generate_key h = (inr k, h') /\ key (self h') = Some k /\
    len k = key_bytes (self h) /\ k = draw (Z.to_nat (key_bytes (self h))) (os h).
Proof.
  intros Hk. unfold generate_key, bind, get_self, urandom, update, ret.
  rewrite (proj2 (fits_ssize_t_iff (key_bytes (self h)))) by lia. cbn [negb].
  destruct (Z.ltb_spec (key_bytes (self h)) 0); [lia|].
  do 2 eexists. split; [reflexivity|]. cbn. repeat split.
  unfold len. rewrite draw_length. lia.
Qed.

Section SessionLemmas.

Context {engine : AeadEngine}.

Lemma decrypt_heap (iv c t : bytes) (a : option bytes) (h : Heap) :
  snd (decrypt iv c t a h) = h.
Proof.
  unfold decrypt, bind, get_self, raise, lift.
  now destruct (key (self h)).
Qed.

(** [encrypt] below exhaustion: at most one nonce is consumed, and a
    returned nonce carries the new counter value. *)
Lemma encrypt_next (p : bytes) (a : option bytes) (h : Heap) :
  wf (self h) -> persistent_iv (self h) = true -> emitted (self h) < 2 ^ 32 - 1 ->
  let (r, h') := encrypt p a h in
  wf (self h') /\ config (self h') = config (self h) /\
  emitted (self h) <= emitted (self h') <= emitted (self h) + 1 /\
  match r with
  | inr (iv, _, _) =>
      counter_of iv = emitted (self h') /\ emitted (self h') = emitted (self h) + 1
  | inl _ => True
  end.
Proof.
  intros Hwf Hp Hlt.
  assert (Hgen : forall h1, nonce_state (self h1) = nonce_state (self h) ->
            config (self h1) = config (self h) ->
            let (r, h') :=
              (iv <- generate_iv ;;
               s <- get_self ;;
               match key s with
               | None => raise TypeError
               | Some k =>
                   let aad := if Py.truthy a then a else None in
                   '(ciphertext, tag) <- lift (gcm_encrypt k iv aad p) ;;
                   ret (iv, ciphertext, tag)
               end) h1 in
            wf (self h') /\ config (self h') = config (self h) /\
            emitted (self h) <= emitted (self h') <= emitted (self h) + 1 /\
            match r with
            | inr (iv, _, _) =>
                counter_of iv = emitted (self h') /\
                emitted (self h') = emitted (self h) + 1
            | inl _ => True
            end).
  { intros h1 Hn Hc.
    assert (Hwf1 : wf (self h1)) by (eapply wf_transfer; eauto).
    assert (Hp1 : persistent_iv (self h1) = true)
      by (unfold config in Hc; inversion Hc; congruence).
    pose proof (emitted_transfer _ _ Hn) as He.
    destruct (generate_iv_next h1 Hwf1 Hp1 ltac:(lia))
      as (iv & h' & E & _ & Hctr & Hem & Hwf' & Hc' & _).
    unfold bind at 1. rewrite E. unfold bind, get_self, raise, lift, ret.
    destruct (key (self h')).
    - destruct (gcm_encrypt _ _ _ _) as [e|[ct tag]];
        (split; [assumption|]); (split; [congruence|]); split; try lia; auto.
    - split; [assumption|]. split; [congruence|]. split; [lia|auto]. }
  unfold encrypt. unfold bind at 1, get_self at 1. unfold bind at 1, when.
  destruct (key (self h)) eqn:K.
  - unfold ret at 1. now apply Hgen.
  - pose proof (generate_key_state h) as [Hn Hc].
    unfold bind at 1. destruct (generate_key h) as [[e|k] h1] eqn:G; cbn [snd] in *.
    + rewrite (emitted_transfer _ _ Hn).
      split; [eapply wf_transfer; eauto|]. split; [assumption|]. split; [lia|auto].
    + unfold ret at 1. now apply Hgen.
Qed.

End SessionLemmas.

(** The request that sets the nonce state up. *)
Lemma generate_iv_first (h : Heap) :
  wf (self h) -> persistent_iv (self h) = true -> _initialized (self h) = false ->
  generate_iv h =
    (inr (draw 8 (os h) ++ struct.pack_BE_I 1),
     {| self := with_initialized true
                  (with_iv_buffer (draw 8 (os h) ++ struct.pack_BE_I 1)
                     (with_iv_counter 1 (self h)));
        os := advance 8 (os h) |}).
Proof.
  intros Hwf Hp Hini. pose proof (generate_iv_persistent h Hwf Hp) as E.
  cbv zeta in E. unfold reinit_due in E. rewrite Hini in E. exact E.
Qed.

(** A request right after [_init_iv_buffer]. *)
Lemma generate_iv_persistent_after_init (h : Heap) :
  wf (self h) -> persistent_iv (self h) = true ->
  generate_iv (snd (_init_iv_buffer h)) =
    (inr (draw 8 (os h) ++ struct.pack_BE_I (0 + 1)),
     {| self := with_initialized true
                  (with_iv_buffer (draw 8 (os h) ++ struct.pack_BE_I (0 + 1))
                     (with_iv_counter (0 + 1) (self h)));
        os := advance 8 (os h) |}).
Proof.
  intros Hwf Hp. pose proof Hwf as (Hmx & Hc & Hb).
  rewrite (init_iv_buffer_persistent h Hb Hp). cbn [snd].
  match goal with |- generate_iv ?x = _ => set (h0 := x) end.
  assert (Hwf0 : wf (self h0)).
  { subst h0. unfold wf. fields. rewrite length_app, draw_length, length_skipn, Hb.
    repeat split; lia. }
  pose proof (generate_iv_persistent h0 Hwf0 Hp) as G. cbv zeta in G.
  assert (R : reinit_due (self h0) = false).
  { subst h0. unfold reinit_due. fields. cbn [negb orb]. rewrite Hmx. reflexivity. }
  rewrite R in G. rewrite G. subst h0. fields.
  rewrite firstn_app, draw_length, firstn_all2 by (rewrite draw_length; lia).
  cbn [Nat.sub firstn]. rewrite app_nil_r.
  destruct h as [[] ?]; reflexivity.
Qed.

(** ** Runs of nonce requests *)

(** [n] requests on an initialised session that stays below exhaustion:
    the prefix stays, the counter values are consecutive. *)
Lemma calls_generate_iv (n : nat) :
  forall h : Heap,
    wf (self h) -> persistent_iv (self h) = true -> _initialized (self h) = true ->
    _iv_counter (self h) + Z.of_nat n <= 2 ^ 32 - 1 ->
    exists h',
      calls n generate_iv h =
        (inr (map (fun i => prefix_of (_iv_buffer (self h))
                              ++ struct.pack_BE_I (_iv_counter (self h) + 1 + Z.of_nat i))
                (seq 0 n)), h') /\
      wf (self h') /\ config (self h') = config (self h) /\
      key (self h') = key (self h) /\ os h' = os h /\
      _initialized (self h') = true /\
      _iv_counter (self h') = _iv_counter (self h) + Z.of_nat n /\
      prefix_of (_iv_buffer (self h')) = prefix_of (_iv_buffer (self h)).
Proof.
  induction n as [|n IH]; intros h Hwf Hp Hini Hle.
  - exists h. cbn [calls seq map]. unfold ret.
    split; [reflexivity|]. repeat (split; [solve [auto]|]). split; [lia|reflexivity].
  - pose proof (generate_iv_persistent h Hwf Hp) as E. cbv zeta in E.
    unfold reinit_due in E. rewrite Hini in E. cbn [negb orb] in E.
    destruct Hwf as (Hmx & Hc & Hb).
    destruct (Z.leb_spec (_max_iv_counter (self h)) (_iv_counter (self h))); [lia|].
    match type of E with _ = (_, ?x) => set (h1 := x) in * end.
    assert (Hl : length (firstn 8 (_iv_buffer (self h))) = 8%nat)
      by (rewrite length_firstn; lia).
    destruct (IH h1) as (h' & En & Hwf' & Hc' & Hk' & Hos' & Hini' & Hctr' & Hpre').
    + subst h1. unfold wf. fields. rewrite length_app, pack_length, Hl.
      repeat split; lia.
    + subst h1. now fields.
    + reflexivity.
    + subst h1. fields. lia.
    + exists h'. split.
      * cbn [calls]. unfold bind at 1. rewrite E. unfold bind at 1. rewrite En.
        unfold ret. f_equal. f_equal.
        cbn [seq map]. rewrite <- seq_shift, map_map. f_equal.
        -- unfold prefix_of. now rewrite Z.add_0_r.
        -- apply map_ext. intros i. subst h1. fields.
           rewrite prefix_of_app by assumption. unfold prefix_of. do 2 f_equal. lia.
      * subst h1. fields. rewrite prefix_of_app in Hpre' by assumption.
        repeat (split; [assumption|]). split; [lia|assumption].
Qed.

Lemma nonces_NoDup (p : bytes) (c : Z) (n : nat) :
  0 <= c -> c + Z.of_nat n <= 2 ^ 32 ->
  NoDup (map (fun i => p ++ struct.pack_BE_I (c + Z.of_nat i)) (seq 0 n)).
Proof.
  intros Hc Hn. apply NoDup_map_NoDup_ForallPairs; [|apply seq_NoDup].
  intros i j Hi Hj E. apply in_seq in Hi, Hj.
  apply app_inv_head in E. apply pack_inj in E; lia.
Qed.

(** The same from a fresh session: the first request draws the prefix. *)
Lemma calls_generate_iv_fresh (key_size : Z) (e : Entropy) (n : nat) :
  Z.of_nat n < 2 ^ 32 ->
  exists h',
    calls n generate_iv (fresh key_size true e) =
      (inr (map (fun i => draw 8 e ++ struct.pack_BE_I (Z.of_nat i + 1)) (seq 0 n)), h') /\
    wf (self h') /\ persistent_iv (self h') = true /\ key (self h') = None /\
    ((0 < n)%nat ->
       _initialized (self h') = true /\ _iv_counter (self h') = Z.of_nat n /\
       os h' = advance 8 e).
Proof.
  intros HN. destruct n as [|n].
  - exists (fresh key_size true e). split; [reflexivity|].
    split; [apply wf_init|]. repeat split; lia.
  - pose proof (generate_iv_first (fresh key_size true e)
                  (wf_init key_size true) eq_refl eq_refl) as E.
    match type of E with _ = (_, ?x) => set (h1 := x) in * end.
    destruct (calls_generate_iv n h1)
      as (h' & En & Hwf' & Hc' & Hk' & Hos' & Hini' & Hctr' & _).
    + subst h1. unfold wf, fresh, __init__. fields.
      rewrite length_app, draw_length, pack_length. repeat split; lia.
    + reflexivity.
    + reflexivity.
    + subst h1. fields. lia.
    + exists h'. split; [|split; [assumption|split; [|split]]].
      * cbn [calls]. unfold bind at 1. rewrite E. unfold bind at 1. rewrite En.
        unfold ret. f_equal. f_equal.
        cbn [seq map]. rewrite <- seq_shift, map_map. f_equal.
        apply map_ext. intros i. subst h1. fields.
        rewrite prefix_of_app by apply draw_length. do 2 f_equal. lia.
      * unfold config in Hc'. inversion Hc'. congruence.
      * rewrite Hk'. reflexivity.
      * intros _. subst h1. fields. repeat split; try assumption. lia.
Qed.

(** C2. Under the persistent strategy, [N < 2^32] sequential nonce
    requests on a fresh session all succeed; the [i]-th nonce (from 0) is
    the 8 bytes drawn at the first request followed by the big-endian
    32-bit encoding of [i + 1]; the nonces are pairwise distinct and all
    have that prefix. *)
Theorem persistent_nonces_of_fresh_session (key_size : Z) (e : Entropy) (N : nat) :
  Z.of_nat N < 2 ^ 32 ->
  let prefix := draw 8 e in
  let nonces :=
    map (fun i => prefix ++ struct.pack_BE_I (Z.of_nat i + 1)) (seq 0 N) in
  fst (calls N generate_iv (fresh key_size true e)) = inr nonces /\
  NoDup nonces /\
  length prefix = 8%nat /\
  Forall (fun nonce => length nonce = 12%nat /\ prefix_of nonce = prefix /\
                       1 <= counter_of nonce <= Z.of_nat N) nonces.
Proof.
  intros HN prefix nonces. subst prefix nonces.
  split; [|split; [|split]].
  - destruct (calls_generate_iv_fresh key_size e N HN) as (h' & E & _).
    now rewrite E.
  - rewrite (map_ext _ (fun i => draw 8 e ++ struct.pack_BE_I (1 + Z.of_nat i)))
      by (intros; do 2 f_equal; lia).
    apply nonces_NoDup; lia.
  - apply draw_length.
  - apply Forall_forall. intros nonce Hin. apply in_map_iff in Hin.
    destruct Hin as (i & <- & Hi). apply in_seq in Hi.
    rewrite length_app, draw_length, pack_length, prefix_of_app, counter_of_app
      by (apply draw_length || lia).
    repeat split; lia.
Qed.

Lemma persistent_nonces_of_fresh_session_witness :
  fst (calls 3 generate_iv (fresh 128 true Reference.ramp)) =
    inr [ [x00; x01; x02; x03; x04; x05; x06; x07; x00; x00; x00; x01];
          [x00; x01; x02; x03; x04; x05; x06; x07; x00; x00; x00; x02];
          [x00; x01; x02; x03; x04; x05; x06; x07; x00; x00; x00; x03] ].
Proof.
  apply (persistent_nonces_of_fresh_session 128 Reference.ramp 3). lia.
Defined.

(** ** Runs of calls *)

Lemma encrypts_cons (c : call) (cs : list call) :
  encrypts (c :: cs) = (if is_encrypt c then 1 else 0) + encrypts cs.
Proof.
  unfold encrypts, len. cbn [filter]. destruct (is_encrypt c); cbn [length]; lia.
Qed.

Section Runs.

Context {engine : AeadEngine}.

Lemma step_next (c : call) (h : Heap) :
  wf (self h) -> persistent_iv (self h) = true ->
  emitted (self h) + (if is_encrypt c then 1 else 0) <= 2 ^ 32 - 1 ->
  let (used, h') := step c h in
  wf (self h') /\ config (self h') = config (self h) /\
  emitted (self h) <= emitted (self h')
    <= emitted (self h) + (if is_encrypt c then 1 else 0) /\
  Forall (fun kn => counter_of (snd kn) = emitted (self h') /\
                    emitted (self h) < emitted (self h')) used /\
  (length used <= 1)%nat.
Proof.
  intros Hwf Hp Hle. destruct c as [|k|p a|iv ct t a]; cbn [step is_encrypt] in *.
  - destruct (generate_key_state h) as [Hn Hc].
    rewrite (emitted_transfer _ _ Hn).
    split; [eapply wf_transfer; eauto|]. split; [assumption|].
    split; [lia|]. split; [constructor|cbn; lia].
  - destruct (set_key_state k h) as [Hn Hc].
    rewrite (emitted_transfer _ _ Hn).
    split; [eapply wf_transfer; eauto|]. split; [assumption|].
    split; [lia|]. split; [constructor|cbn; lia].
  - pose proof (encrypt_next p a h Hwf Hp ltac:(lia)) as H.
    destruct (encrypt p a h) as [[e|[[iv ct] t]] h'].
    + destruct H as (Hwf' & Hc' & Hem & _). repeat (split; [assumption|]).
      split; [constructor|cbn; lia].
    + destruct H as (Hwf' & Hc' & Hem & Hctr & Hinc). repeat (split; [assumption|]).
      destruct (key (self h')); (split; [|cbn; lia]); constructor; [|constructor].
      cbn [snd]. split; [assumption|lia].
  - rewrite decrypt_heap.
    split; [assumption|]. split; [reflexivity|].
    split; [lia|]. split; [constructor|cbn; lia].
Qed.

Lemma run_next (cs : list call) :
  forall h : Heap,
    wf (self h) -> persistent_iv (self h) = true ->
    emitted (self h) + encrypts cs <= 2 ^ 32 - 1 ->
    let (used, h') := run cs h in
    wf (self h') /\ config (self h') = config (self h) /\
    emitted (self h) <= emitted (self h') /\
    Forall (fun kn => emitted (self h) < counter_of (snd kn) <= emitted (self h')) used /\
    NoDup (map snd used).
Proof.
  induction cs as [|c cs IH]; intros h Hwf Hp Hle; cbn [run].
  - split; [assumption|]. split; [reflexivity|]. split; [lia|]. split; constructor.
  - rewrite encrypts_cons in Hle.
    assert (0 <= encrypts cs) by apply len_nonneg.
    pose proof (step_next c h Hwf Hp ltac:(lia)) as Hs.
    destruct (step c h) as [used h1].
    destruct Hs as (Hwf1 & Hc1 & Hem1 & Hused & Hone).
    assert (Hp1 : persistent_iv (self h1) = true)
      by (unfold config in Hc1; inversion Hc1; congruence).
    specialize (IH h1 Hwf1 Hp1 ltac:(lia)).
    destruct (run cs h1) as [rest h2].
    destruct IH as (Hwf2 & Hc2 & Hem2 & Hrest & Hnd).
    split; [assumption|]. split; [congruence|]. split; [lia|]. split.
    + apply Forall_app. split.
      * eapply Forall_impl; [|exact Hused]. cbn beta. intros kn [? ?]. lia.
      * eapply Forall_impl; [|exact Hrest]. cbn beta. intros kn [? ?]. lia.
    + rewrite map_app. apply NoDup_app.
      * destruct used as [|kn [|kn' used]]; cbn [map].
        -- constructor.
        -- constructor; [intros []|constructor].
        -- cbn [length] in Hone. lia.
      * assumption.
      * intros iv Hin1 Hin2. apply in_map_iff in Hin1, Hin2.
        destruct Hin1 as (kn1 & <- & Hin1). destruct Hin2 as (kn2 & E2 & Hin2).
        rewrite Forall_forall in Hused, Hrest.
        specialize (Hused _ Hin1). specialize (Hrest _ Hin2).
        rewrite E2 in Hrest. lia.
Qed.

End Runs.

(** ** Nonce requests never fail *)

Lemma generate_iv_ok (h : Heap) :
  wf (self h) ->
  exists iv h',
    generate_iv h = (inr iv, h') /\ length iv = 12%nat /\
    wf (self h') /\ config (self h') = config (self h) /\
    key (self h') = key (self h).
Proof.
  intros Hwf. destruct (persistent_iv (self h)) eqn:Hp.
  - pose proof (generate_iv_persistent h Hwf Hp) as E. cbv zeta in E.
    destruct Hwf as (Hmx & Hc & Hb).
    assert (Hr : reinit_due (self h) = false -> _iv_counter (self h) < 2 ^ 32 - 1).
    { unfold reinit_due. destruct (_initialized (self h)); cbn [negb orb]; [|discriminate].
      destruct (Z.leb_spec (_max_iv_counter (self h)) (_iv_counter (self h)));
        [discriminate|lia]. }
    destruct (reinit_due (self h)); do 2 eexists; (split; [exact E|]);
      unfold wf; fields; rewrite length_app, pack_length.
    + rewrite draw_length. repeat split; lia.
    + rewrite length_firstn, Hb. specialize (Hr eq_refl). repeat split; lia.
  - rewrite (generate_iv_random h Hp). do 2 eexists. split; [reflexivity|].
    destruct Hwf as (Hmx & Hc & Hb). unfold wf. fields. rewrite draw_length.
    repeat split; lia.
Qed.

(** ** The reference engine meets the engine laws *)

Lemma reference_round_trip (k iv : bytes) (aad : option bytes) (p c t : bytes) :
  Reference.enc k iv aad p = inr (c, t) -> Reference.dec k iv t aad c = inr p.
Proof.
  unfold Reference.enc, Reference.dec.
  destruct (Reference.valid_key k); cbn [negb]; [|discriminate].
  destruct (Reference.valid_iv iv); cbn [negb]; [|discriminate].
  intros E. inversion E. subst c t.
  replace (len (Reference.mac k iv aad (rev p)) <? 16) with false by reflexivity.
  destruct (list_eq_dec byte_eq_dec _ _) as [_|N]; [|now destruct N].
  now rewrite rev_involutive.
Qed.

Lemma reference_accepts (k iv : bytes) (aad : option bytes) (p : bytes) :
  In (len k) [16; 24; 32] -> len iv = 12 ->
  exists c t, Reference.enc k iv aad p = inr (c, t).
Proof.
  intros Hk Hiv.
  assert (Vk : Reference.valid_key k = true).
  { unfold Reference.valid_key. destruct Hk as [<-|[<-|[<-|[]]]]; reflexivity. }
  assert (Vi : Reference.valid_iv iv = true).
  { unfold Reference.valid_iv. now rewrite Hiv. }
  unfold Reference.enc. rewrite Vk, Vi. cbn [negb]. eauto.
Qed.

Section Session.

Context {engine : AeadEngine}.

(** What a successful [encrypt] has done. *)
Lemma encrypt_inr (p : bytes) (a : option bytes) (h h' : Heap) (iv c t : bytes) :
  encrypt p a h = (inr (iv, c, t), h') ->
  exists k, key (self h') = Some k /\
            gcm_encrypt k iv (if Py.truthy a then a else None) p = inr (c, t).
Proof.
  unfold encrypt, bind, get_self, when, raise, lift, ret.
  destruct (key (self h)).
  - destruct (generate_iv h) as [[e|iv1] h1]; [discriminate|].
    destruct (key (self h1)) as [k1|] eqn:K1; [|discriminate].
    destruct (gcm_encrypt _ _ _ _) as [e|[c1 t1]] eqn:G; [discriminate|].
    intros E. inversion E. subst. eauto.
  - destruct (generate_key h) as [[e|k0] h0]; [discriminate|].
    destruct (generate_iv h0) as [[e|iv1] h1]; [discriminate|].
    destruct (key (self h1)) as [k1|] eqn:K1; [|discriminate].
    destruct (gcm_encrypt _ _ _ _) as [e|[c1 t1]] eqn:G; [discriminate|].
    intros E. inversion E. subst. eauto.
Qed.

Lemma decrypt_with_key (iv c t : bytes) (a : option bytes) (h : Heap) (k : bytes) :
  key (self h) = Some k ->
  decrypt iv c t a h = (gcm_decrypt k iv t (if Py.truthy a then a else None) c, h).
Proof.
  intros K. unfold decrypt, bind, get_self, lift. now rewrite K.
Qed.

Lemma decrypt_without_key (iv c t : bytes) (a : option bytes) (h : Heap) :
  key (self h) = None ->
  decrypt iv c t a h = (inl (ValueError no_key_message), h).
Proof.
  intros K. unfold decrypt, bind, get_self, raise. now rewrite K.
Qed.

End Session.

(** ** Uniqueness of (key, nonce) pairs *)

(** C1, as amended.  Under the persistent strategy and as long as the
    32-bit counter is not exhausted, no nonce, hence no (key, nonce)
    pair, is used twice by [encrypt], whatever calls of [generate_key],
    [set_key] and [decrypt] come in between. *)
Theorem nonce_pairs_unique_below_exhaustion {engine : AeadEngine}
  (cs : list call) (h : Heap) :
  wf (self h) -> persistent_iv (self h) = true ->
  emitted (self h) + encrypts cs <= 2 ^ 32 - 1 ->
  NoDup (map snd (fst (run cs h))) /\ NoDup (fst (run cs h)).
Proof.
  intros Hwf Hp Hle. pose proof (run_next cs h Hwf Hp Hle) as H.
  destruct (run cs h) as [used h']. cbn [fst].
  destruct H as (_ & _ & _ & _ & Hnd). split; [assumption|].
  eapply NoDup_map_inv; eassumption.
Qed.

Lemma nonce_pairs_unique_below_exhaustion_witness :
  NoDup (fst (run (engine := Reference.engine)
                [Encrypt [x01] None; GenerateKey; Encrypt [x01] None;
                 SetKey (repeat x00 16); Encrypt [x01] (Some [x02])]
                (fresh 128 true Reference.stuck))).
Proof.
  apply (nonce_pairs_unique_below_exhaustion (engine := Reference.engine)).
  - apply wf_init.
  - reflexivity.
  - vm_compute. discriminate.
Defined.

(** C1 fails as stated.  With a random source that yields the same bytes
    again, the random strategy uses one (key, nonce) pair for two
    [encrypt] calls; and under the persistent strategy the request that
    follows counter exhaustion returns the very first nonce again. *)
Lemma nonce_pair_repeats :
  ~ NoDup (fst (run (engine := Reference.engine)
                  [SetKey (repeat x00 16); Encrypt [x01] None; Encrypt [x02] None]
                  (fresh 128 false Reference.stuck))) /\
  exists nonces h,
    calls (Z.to_nat (2 ^ 32 - 1)) generate_iv (fresh 128 true Reference.stuck)
      = (inr nonces, h) /\
    fst (generate_iv h) = fst (generate_iv (fresh 128 true Reference.stuck)).
Proof.
  split.
  - intros H.
    assert (E : fst (run (engine := Reference.engine)
                       [SetKey (repeat x00 16); Encrypt [x01] None; Encrypt [x02] None]
                       (fresh 128 false Reference.stuck))
                = [(repeat x00 16, repeat x00 12); (repeat x00 16, repeat x00 12)])
      by (vm_compute; reflexivity).
    rewrite E in H. inversion H as [|? ? Hnotin _]. apply Hnotin. now left.
  - destruct (calls_generate_iv_fresh 128 Reference.stuck (Z.to_nat (2 ^ 32 - 1)))
      as (h & E & Hwf & Hp & _ & Hlast); [lia|].
    destruct Hlast as (Hini & Hctr & Hos); [lia|].
    do 2 eexists. split; [exact E|].
    pose proof (generate_iv_persistent h Hwf Hp) as G. cbv zeta in G.
    assert (R : reinit_due (self h) = true).
    { unfold reinit_due. rewrite Hini. cbn [negb orb]. destruct Hwf as (Hmx & _).
      apply Z.leb_le. lia. }
    rewrite R in G. rewrite G, Hos.
    rewrite (generate_iv_first (fresh 128 true Reference.stuck)
               (wf_init 128 true) eq_refl eq_refl).
    reflexivity.
Qed.

(** ** Round trip *)

Section RoundTrip.

Context {engine : AeadEngine}.

(** The engine decrypts what it encrypted (same key, nonce and
    associated data). *)
Hypothesis gcm_round_trip :
  forall k iv aad p c t,
    gcm_encrypt k iv aad p = inr (c, t) -> gcm_decrypt k iv t aad c = inr p.

(** The engine encrypts under an AES key and a 12-byte nonce. *)
Hypothesis gcm_accepts :
  forall k iv aad p,
    In (len k) [16; 24; 32] -> len iv = 12 ->
    exists c t, gcm_encrypt k iv aad p = inr (c, t).

(** C3. On a session whose key is set (an AES key), [encrypt] returns
    a triple, and [decrypt] of that triple with the same associated
    data on the same session returns the plaintext. *)
Theorem decrypt_encrypt_round_trip
  (h : Heap) (k p : bytes) (a : option bytes) :
  wf (self h) -> key (self h) = Some k -> In (len k) [16; 24; 32] ->
  exists iv c t h',
    encrypt p a h = (inr (iv, c, t), h') /\
    decrypt iv c t a h' = (inr p, h').
Proof.
  intros Hwf K Hk.
  destruct (generate_iv_ok h Hwf) as (iv & h' & G & Hl & _ & _ & K').
  rewrite K in K'.
  destruct (gcm_accepts k iv (if Py.truthy a then a else None) p Hk) as (c & t & E).
  { unfold len. rewrite Hl. reflexivity. }
  exists iv, c, t, h'. split.
  - unfold encrypt, bind, get_self, when, lift, ret. rewrite K.
    rewrite G, K', E. reflexivity.
  - rewrite (decrypt_with_key _ _ _ _ _ k K').
    now rewrite (gcm_round_trip _ _ _ _ _ _ E).
Qed.

(** C10. The empty byte string as associated data is the same as no
    associated data: [encrypt] and [decrypt] hand the engine nothing in
    both cases, so what was encrypted with one decrypts with the
    other. *)
Theorem empty_associated_data_is_none
  (p iv c t : bytes) (h : Heap) :
  encrypt p (Some []) h = encrypt p None h /\
  decrypt iv c t (Some []) h = decrypt iv c t None h /\
  (forall h', encrypt p (Some []) h = (inr (iv, c, t), h') ->
              decrypt iv c t None h' = (inr p, h')) /\
  (forall h', encrypt p None h = (inr (iv, c, t), h') ->
              decrypt iv c t (Some []) h' = (inr p, h')).
Proof.
  split; [reflexivity|]. split; [reflexivity|].
  split; intros h' E; apply encrypt_inr in E; destruct E as (k & K & E);
    rewrite (decrypt_with_key _ _ _ _ _ k K); cbn [Py.truthy] in *;
    now rewrite (gcm_round_trip _ _ _ _ _ _ E).
Qed.

End RoundTrip.

Lemma decrypt_encrypt_round_trip_witness :
  exists iv c t h',
    encrypt (engine := Reference.engine) [x01; x02] (Some [x05]) Sample.keyed
    = (inr (iv, c, t), h') /\
    decrypt (engine := Reference.engine) iv c t (Some [x05]) h' = (inr [x01; x02], h').
Proof.
  apply (decrypt_encrypt_round_trip (engine := Reference.engine)
           reference_round_trip reference_accepts Sample.keyed (repeat x00 16)).
  - vm_compute. repeat split; discriminate.
  - reflexivity.
  - vm_compute. left. reflexivity.
Defined.

Lemma empty_associated_data_is_none_witness :
  exists iv c t h',
    encrypt (engine := Reference.engine) [x01; x02] (Some []) Sample.keyed
      = (inr (iv, c, t), h') /\
    decrypt (engine := Reference.engine) iv c t None h' = (inr [x01; x02], h').
Proof.
  do 4 eexists. split.
  - vm_compute. reflexivity.
  - apply (empty_associated_data_is_none (engine := Reference.engine)
             reference_round_trip [x01; x02] _ _ _ Sample.keyed).
    vm_compute. reflexivity.
Defined.

(** ** Combined frames *)

Lemma repeat_add {A : Type} (x : A) (n m : nat) :
  repeat x (n + m) = repeat x n ++ repeat x m.
Proof. induction n; cbn; congruence. Qed.

(** Overwriting the middle of a buffer. *)
Lemma slice_assign_middle {A : Type} (pre old post v : list A) :
  Py.slice_assign (pre ++ old ++ post) (Some (len pre)) (Some (len pre + len old)) v
  = pre ++ v ++ post.
Proof.
  unfold Py.slice_assign, Py.bound.
  pose proof (len_nonneg pre). pose proof (len_nonneg old). pose proof (len_nonneg post).
  rewrite !len_app.
  destruct (Z.ltb_spec (len pre) 0); [lia|].
  destruct (Z.ltb_spec (len pre + len old) 0); [lia|].
  rewrite (Z.min_l (len pre)), (Z.min_l (len pre + len old)), Z.max_r by lia.
  unfold len. rewrite <- Nat2Z.inj_add, !Nat2Z.id.
  rewrite firstn_app, Nat.sub_diag, firstn_all. cbn [firstn]. rewrite app_nil_r.
  do 2 f_equal.
  rewrite (app_assoc pre old post), <- length_app, skipn_app, Nat.sub_diag, skipn_all.
  reflexivity.
Qed.

(** Overwriting the end of a buffer. *)
Lemma slice_assign_end {A : Type} (pre old v : list A) :
  Py.slice_assign (pre ++ old) (Some (len pre)) None v = pre ++ v.
Proof.
  unfold Py.slice_assign, Py.bound.
  pose proof (len_nonneg pre). pose proof (len_nonneg old).
  rewrite !len_app.
  destruct (Z.ltb_spec (len pre) 0); [lia|].
  rewrite (Z.min_l (len pre)), Z.max_r by lia.
  unfold len. rewrite <- Nat2Z.inj_add, !Nat2Z.id.
  rewrite firstn_app, Nat.sub_diag, firstn_all. cbn [firstn]. rewrite app_nil_r.
  rewrite <- length_app, skipn_all. now rewrite app_nil_r.
Qed.

Lemma frame_layout (iv c t : bytes) :
  Py.slice_assign
    (Py.slice_assign
       (Py.slice_assign (Py.bytearray (len iv + len c + len t))
          (Some 0) (Some (len iv)) iv)
       (Some (len iv)) (Some (len iv + len c)) c)
    (Some (len iv + len c)) None t
  = iv ++ c ++ t.
Proof.
  unfold Py.bytearray.
  replace (Z.to_nat (len iv + len c + len t))
    with (length iv + (length c + length t))%nat by (unfold len; lia).
  rewrite !repeat_add.
  pose proof (slice_assign_middle [] (repeat x00 (length iv))
                (repeat x00 (length c) ++ repeat x00 (length t)) iv) as E1.
  cbn [app] in E1. unfold len at 1 2 in E1. cbn [length Z.of_nat] in E1.
  replace (0 + len (repeat x00 (length iv))) with (len iv) in E1
    by (unfold len; rewrite repeat_length; lia).
  rewrite E1. clear E1.
  pose proof (slice_assign_middle iv (repeat x00 (length c))
                (repeat x00 (length t)) c) as E2.
  replace (len (repeat x00 (length c))) with (len c) in E2
    by (unfold len; now rewrite repeat_length).
  rewrite E2. clear E2.
  pose proof (slice_assign_end (iv ++ c) (repeat x00 (length t)) t) as E3.
  rewrite len_app, <- !app_assoc in E3. exact E3.
Qed.

Section Combined.

Context {engine : AeadEngine}.

(** C9. The frame of [encrypt_combined] is the triple of [encrypt]
    laid end to end, nonce then ciphertext then tag, and nothing else;
    its length is the sum of the three lengths.  [encrypt_combined]
    fails exactly when [encrypt] does. *)
Theorem encrypt_combined_is_concatenation (p : bytes) (a : option bytes) (h : Heap) :
  encrypt_combined p a h =
    (match fst (encrypt p a h) with
     | inr (iv, c, t) => inr (iv ++ c ++ t, len iv, len t)
     | inl e => inl e
     end, snd (encrypt p a h)) /\
  (forall frame n m, fst (encrypt_combined p a h) = inr (frame, n, m) ->
     exists iv c t,
       fst (encrypt p a h) = inr (iv, c, t) /\ frame = iv ++ c ++ t /\
       len frame = len iv + len c + len t /\ n = len iv /\ m = len t).
Proof.
  assert (E : encrypt_combined p a h =
              (match fst (encrypt p a h) with
               | inr (iv, c, t) => inr (iv ++ c ++ t, len iv, len t)
               | inl e => inl e
               end, snd (encrypt p a h))).
  { unfold encrypt_combined, bind.
    destruct (encrypt p a h) as [[e|[[iv c] t]] h']; [reflexivity|].
    unfold ret. cbn [fst snd]. now rewrite frame_layout. }
  split; [exact E|].
  intros frame n m. rewrite E. cbn [fst].
  destruct (fst (encrypt p a h)) as [e|[[iv c] t]]; [discriminate|].
  intros F. inversion F. subst. exists iv, c, t.
  rewrite !len_app. repeat split; lia.
Qed.

End Combined.

(** The three slices taken from a frame that is too short. *)
Lemma short_frame_slices {A : Type} (frame : list A) (iv_size tag_size : Z) :
  0 <= iv_size -> 0 < tag_size -> len frame < iv_size + tag_size ->
  Py.slice frame None (Some iv_size) = firstn (Z.to_nat iv_size) frame /\
  Py.slice frame (Some iv_size) (Some (- tag_size)) = [] /\
  Py.slice frame (Some (- tag_size)) None =
    skipn (Z.to_nat (len frame - tag_size)) frame.
Proof.
  intros Hi Ht Hlen. pose proof (len_nonneg frame) as Hn.
  unfold Py.slice, Py.bound.
  destruct (Z.ltb_spec iv_size 0); [lia|].
  destruct (Z.ltb_spec (- tag_size) 0); [|lia].
  repeat split.
  - rewrite Z.sub_0_r. change (Z.to_nat 0) with 0%nat. cbn [skipn].
    destruct (Z.le_ge_cases iv_size (len frame)).
    + now rewrite Z.min_l.
    + rewrite Z.min_r by lia. unfold len. rewrite Nat2Z.id, firstn_all.
      symmetry. apply firstn_all2. unfold len in *. lia.
  - replace (Z.to_nat (Z.max 0 (len frame + - tag_size) - Z.min iv_size (len frame)))
      with 0%nat by lia.
    reflexivity.
  - replace (Z.to_nat (Z.max 0 (len frame + - tag_size)))
      with (Z.to_nat (len frame - tag_size)) by lia.
    apply firstn_all2. rewrite length_skipn. unfold len. lia.
Qed.

Section Failures.

Context {engine : AeadEngine}.

(** C4, as amended.  [decrypt_combined] makes no length check.  On a
    frame shorter than [iv_size + tag_size] it calls [decrypt] with the
    first [iv_size] bytes as nonce, the last [tag_size] bytes as tag
    (the two overlap or are cut short) and an empty ciphertext; so it
    fails with the no-key [ValueError] when no key is set, and
    otherwise returns whatever the engine returns for these. *)
Theorem decrypt_combined_short_frame
  (frame : bytes) (iv_size tag_size : Z) (a : option bytes) (h : Heap) :
  0 <= iv_size -> 0 < tag_size -> len frame < iv_size + tag_size ->
  decrypt_combined frame iv_size tag_size a h =
    decrypt (firstn (Z.to_nat iv_size) frame) []
      (skipn (Z.to_nat (len frame - tag_size)) frame) a h /\
  (key (self h) = None ->
     decrypt_combined frame iv_size tag_size a h =
       (inl (ValueError no_key_message), h)) /\
  (forall k, key (self h) = Some k ->
     decrypt_combined frame iv_size tag_size a h =
       (gcm_decrypt k (firstn (Z.to_nat iv_size) frame)
          (skipn (Z.to_nat (len frame - tag_size)) frame)
          (if Py.truthy a then a else None) [], h)).
Proof.
  intros Hi Ht Hlen.
  destruct (short_frame_slices frame iv_size tag_size Hi Ht Hlen) as (E1 & E2 & E3).
  unfold decrypt_combined. rewrite E1, E2, E3.
  split; [reflexivity|]. split.
  - apply decrypt_without_key.
  - intros k K. now apply decrypt_with_key.
Qed.

(** C7, as amended.  [decrypt] on a session without a key raises the
    no-key [ValueError], not the engine's [InvalidTag]; the engine is
    not consulted, the session is left as it was, and no plaintext is
    returned. *)
Theorem decrypt_without_key_raises
  (iv c t : bytes) (a : option bytes) (h : Heap) :
  key (self h) = None ->
  decrypt iv c t a h = (inl (ValueError no_key_message), h) /\
  (forall p, fst (decrypt iv c t a h) <> inr p).
Proof.
  intros K. rewrite (decrypt_without_key iv c t a h K).
  split; [reflexivity|]. discriminate.
Qed.

End Failures.

Lemma decrypt_combined_short_frame_witness :
  decrypt_combined (engine := Reference.engine) Sample.short_frame 12 16 None Sample.keyed
  = (@gcm_decrypt Reference.engine (repeat x00 16)
       (firstn (Z.to_nat 12) Sample.short_frame)
       (skipn (Z.to_nat (len Sample.short_frame - 16)) Sample.short_frame)
       None [],
     Sample.keyed).
Proof.
  apply (decrypt_combined_short_frame (engine := Reference.engine)
           Sample.short_frame 12 16 None Sample.keyed).
  - lia.
  - lia.
  - vm_compute. reflexivity.
  - reflexivity.
Defined.

(** C4 fails as stated: on a session with a key, a 20-byte frame,
    shorter than 12 + 16, is cut into a 12-byte nonce, a 16-byte tag that
    overlaps it and an empty ciphertext, and these reach the engine; what
    comes back is the engine's verdict on them, here the authentication
    failure [InvalidTag], not a length error.  On a session without a key
    the same frame gets the no-key [ValueError]. *)
Lemma short_frame_is_not_rejected :
  len Sample.short_frame < 12 + 16 /\
  decrypt_combined (engine := Reference.engine) Sample.short_frame 12 16 None Sample.keyed
    = (@gcm_decrypt Reference.engine (repeat x00 16) (repeat x00 12)
         (repeat x00 8 ++ repeat x01 8) None [],
       Sample.keyed) /\
  fst (decrypt_combined (engine := Reference.engine) Sample.short_frame 12 16 None
         Sample.keyed)
    = inl InvalidTag /\
  fst (decrypt_combined (engine := Reference.engine) Sample.short_frame 12 16 None
         Sample.unused)
    = inl (ValueError no_key_message).
Proof. vm_compute. repeat split. Qed.

Lemma decrypt_without_key_raises_witness :
  decrypt (engine := Reference.engine) (repeat x00 12) [x01] (repeat x00 16) None
    (fresh 128 true Reference.ramp)
  = (inl (ValueError no_key_message), fresh 128 true Reference.ramp).
Proof.
  apply (decrypt_without_key_raises (engine := Reference.engine)
           (repeat x00 12) [x01] (repeat x00 16) None (fresh 128 true Reference.ramp)).
  reflexivity.
Defined.

(** C7 fails as stated: the failure of [decrypt] on a session without a
    key is a [ValueError], which is not the authentication failure
    [InvalidTag] that a wrong tag gives. *)
Lemma decrypt_without_key_is_not_authentication_failure :
  fst (decrypt (engine := Reference.engine) (repeat x00 12) [x01] (repeat x00 16) None
         (fresh 128 true Reference.ramp))
    <> inl InvalidTag /\
  fst (decrypt (engine := Reference.engine) (repeat x00 12) [x01] (repeat x00 16) None
         Sample.keyed)
    = inl InvalidTag.
Proof. vm_compute. split; [discriminate|reflexivity]. Qed.

(** ** Keys *)

(** C6. [set_key k] raises the key-length [ValueError] exactly when the
    length of [k] is not the configured number of key bytes, and then
    changes nothing; when the length matches, it returns and the
    session's key is [k]. *)
Theorem set_key_checks_length (k : bytes) (h : Heap) :
  (fst (set_key k h) = inl (ValueError (key_length_message (self h)))
     <-> len k <> key_bytes (self h)) /\
  (len k <> key_bytes (self h) ->
     set_key k h = (inl (ValueError (key_length_message (self h))), h)) /\
  (len k = key_bytes (self h) ->
     set_key k h = (inr tt, {| self := with_key (Some k) (self h); os := os h |}) /\
     key (self (snd (set_key k h))) = Some k).
Proof.
  unfold set_key, bind, get_self, raise, update.
  destruct (Z.eqb_spec (len k) (key_bytes (self h))) as [E|N]; cbn [negb fst snd].
  - split; [split; [discriminate|contradiction]|]. split; [contradiction|].
    intros _. split; reflexivity.
  - split; [split; auto|]. split; [reflexivity|contradiction].
Qed.

Lemma set_key_checks_length_witness :
  set_key (repeat x00 15) (fresh 128 true Reference.ramp)
    = (inl (ValueError "Key must be exactly 16 bytes for AES-128"),
       fresh 128 true Reference.ramp) /\
  key (self Sample.keyed)
    = Some (repeat x00 16).
Proof.
  split.
  - apply (set_key_checks_length (repeat x00 15) (fresh 128 true Reference.ramp)).
    vm_compute. discriminate.
  - apply (set_key_checks_length (repeat x00 16) (fresh 128 true Reference.ramp)).
    reflexivity.
Defined.

(** C5, as amended.  [generate_key] and [set_key] leave the nonce state
    (initialisation flag, buffer and counter) as it is.  The next nonce
    request on an initialised persistent session below exhaustion
    therefore keeps the prefix and goes on counting. *)
Theorem key_change_keeps_nonce_state (k : bytes) (h : Heap) :
  nonce_state (self (snd (generate_key h))) = nonce_state (self h) /\
  nonce_state (self (snd (set_key k h))) = nonce_state (self h) /\
  (wf (self h) -> persistent_iv (self h) = true -> reinit_due (self h) = false ->
     let next := prefix_of (_iv_buffer (self h))
                   ++ struct.pack_BE_I (_iv_counter (self h) + 1) in
     fst (generate_iv (snd (generate_key h))) = inr next /\
     fst (generate_iv (snd (set_key k h))) = inr next).
Proof.
  destruct (generate_key_state h) as [Hn1 Hc1].
  destruct (set_key_state k h) as [Hn2 Hc2].
  split; [assumption|]. split; [assumption|].
  intros Hwf Hp Hr next. subst next.
  assert (Hnext : forall h1, nonce_state (self h1) = nonce_state (self h) ->
            config (self h1) = config (self h) ->
            fst (generate_iv h1) =
              inr (prefix_of (_iv_buffer (self h))
                     ++ struct.pack_BE_I (_iv_counter (self h) + 1))).
  { intros h1 Hn Hc.
    assert (Hwf1 : wf (self h1)) by (eapply wf_transfer; eauto).
    assert (Hp1 : persistent_iv (self h1) = true)
      by (unfold config in Hc; inversion Hc; congruence).
    pose proof (generate_iv_persistent h1 Hwf1 Hp1) as G. cbv zeta in G.
    unfold nonce_state in Hn. unfold config in Hc. inversion Hn. inversion Hc.
    assert (Hr1 : reinit_due (self h1) = false)
      by (unfold reinit_due in *; congruence).
    rewrite Hr1 in G. rewrite G. cbn [fst]. unfold prefix_of. congruence. }
  split; apply Hnext; assumption.
Qed.

Lemma key_change_keeps_nonce_state_witness :
  fst (generate_iv (snd (generate_key Sample.started)))
    = inr [x00; x01; x02; x03; x04; x05; x06; x07; x00; x00; x00; x02] /\
  fst (generate_iv (snd (set_key (repeat x00 16) Sample.started)))
    = inr [x00; x01; x02; x03; x04; x05; x06; x07; x00; x00; x00; x02].
Proof.
  apply (key_change_keeps_nonce_state (repeat x00 16) Sample.started).
  - vm_compute. repeat split; discriminate.
  - reflexivity.
  - reflexivity.
Defined.

(** C5 fails as stated: after a key change the next nonce request does
    not draw a new prefix and does not start counting again. *)
Lemma key_change_does_not_reinitialize :
  fst (set_key (repeat x00 16) Sample.started) = inr tt /\
  fst (generate_key Sample.started) = inr (draw 16 (os Sample.started)) /\
  reinit_due (self (snd (generate_key Sample.started))) = false /\
  reinit_due (self (snd (set_key (repeat x00 16) Sample.started))) = false /\
  fst (generate_iv (snd (generate_key Sample.started)))
    <> inr (draw 8 (os (snd (generate_key Sample.started))) ++ struct.pack_BE_I 1) /\
  fst (generate_iv (snd (set_key (repeat x00 16) Sample.started)))
    <> inr (draw 8 (os (snd (set_key (repeat x00 16) Sample.started)))
              ++ struct.pack_BE_I 1).
Proof. vm_compute. repeat split; discriminate. Qed.

(** ** Counter range and exhaustion *)

Section Reachable.

Context {engine : AeadEngine}.

Lemma encrypt_wf (p : bytes) (a : option bytes) (h : Heap) :
  wf (self h) -> wf (self (snd (encrypt p a h))).
Proof.
  intros Hwf.
  assert (Hgen : forall h1, wf (self h1) ->
            wf (self (snd ((iv <- generate_iv ;;
                            s <- get_self ;;
                            match key s with
                            | None => raise TypeError
                            | Some k =>
                                let aad := if Py.truthy a then a else None in
                                '(ciphertext, tag) <- lift (gcm_encrypt k iv aad p) ;;
                                ret (iv, ciphertext, tag)
                            end) h1)))).
  { intros h1 Hwf1.
    destruct (generate_iv_ok h1 Hwf1) as (iv & h' & E & _ & Hwf' & _).
    unfold bind at 1. rewrite E. unfold bind, get_self, raise, lift, ret.
    destruct (key (self h')); [|assumption].
    now destruct (gcm_encrypt _ _ _ _) as [e|[c t]]. }
  unfold encrypt. unfold bind at 1, get_self at 1. unfold bind at 1, when.
  destruct (key (self h)).
  - unfold ret at 1. now apply Hgen.
  - destruct (generate_key_state h) as [Hn Hc].
    unfold bind at 1. destruct (generate_key h) as [[e|k] h1]; cbn [snd] in *.
    + eapply wf_transfer; eauto.
    + unfold ret at 1. apply Hgen. eapply wf_transfer; eauto.
Qed.

(** The invariant holds in every state a caller can reach. *)
Lemma run_wf (cs : list call) :
  forall h, wf (self h) -> wf (self (snd (run cs h))).
Proof.
  induction cs as [|c cs IH]; intros h Hwf; cbn [run]; [assumption|].
  assert (Hs : wf (self (snd (step c h)))).
  { destruct c as [|k|p a|iv ct t a]; cbn [step snd].
    - destruct (generate_key_state h). eapply wf_transfer; eauto.
    - destruct (set_key_state k h). eapply wf_transfer; eauto.
    - pose proof (encrypt_wf p a h Hwf) as H.
      now destruct (encrypt p a h) as [[e|[[iv ct] t]] h'].
    - now rewrite decrypt_heap. }
  destruct (step c h) as [used h1]. specialize (IH h1 Hs).
  now destruct (run cs h1).
Qed.

End Reachable.

(** C8. Under the persistent strategy a nonce request never fails and
    the counter value it writes into the nonce lies in [1, 2^32 - 1].
    When the counter has reached [2^32 - 1], the request first runs
    [_init_iv_buffer], which draws a new prefix and sets the counter to 0,
    and then proceeds as usual: the nonce it returns is the new prefix
    followed by the encoding of 1. *)
Theorem counter_range_and_exhaustion (h : Heap) :
  wf (self h) -> persistent_iv (self h) = true ->
  exists iv h',
    generate_iv h = (inr iv, h') /\
    1 <= counter_of iv <= 2 ^ 32 - 1 /\
    _iv_counter (self h') = counter_of iv /\
    wf (self h') /\
    (_initialized (self h) = true -> 2 ^ 32 - 1 <= _iv_counter (self h) ->
       let h0 := snd (_init_iv_buffer h) in
       fst (_init_iv_buffer h) = inr tt /\
       _iv_counter (self h0) = 0 /\
       prefix_of (_iv_buffer (self h0)) = draw 8 (os h) /\
       generate_iv h = generate_iv h0 /\
       iv = draw 8 (os h) ++ struct.pack_BE_I 1).
Proof.
  intros Hwf Hp. pose proof (generate_iv_persistent h Hwf Hp) as E. cbv zeta in E.
  pose proof Hwf as (Hmx & Hc & Hb).
  assert (Hr : reinit_due (self h) = false -> _iv_counter (self h) < 2 ^ 32 - 1).
  { unfold reinit_due. destruct (_initialized (self h)); cbn [negb orb]; [|discriminate].
    destruct (Z.leb_spec (_max_iv_counter (self h)) (_iv_counter (self h)));
      [discriminate|lia]. }
  destruct (reinit_due (self h)) eqn:R.
  - do 2 eexists. split; [exact E|]. unfold wf. fields.
    rewrite counter_of_app, length_app, draw_length, pack_length
      by (apply draw_length || lia).
    split; [lia|]. split; [reflexivity|]. split; [repeat split; lia|].
    intros Hini Hex.
    pose proof (generate_iv_persistent_after_init h Hwf Hp) as G0.
    rewrite (init_iv_buffer_persistent h Hb Hp) in *. fields.
    rewrite prefix_of_app by apply draw_length.
    repeat (split; [reflexivity|]). split; [|reflexivity].
    now rewrite E, G0.
  - specialize (Hr eq_refl). do 2 eexists. split; [exact E|]. unfold wf. fields.
    rewrite counter_of_app, length_app, length_firstn, pack_length, Hb
      by (rewrite ?length_firstn; lia).
    split; [lia|]. split; [reflexivity|]. split; [repeat split; lia|].
    intros _ Hex. lia.
Qed.

Lemma counter_range_and_exhaustion_witness :
  exists iv h',
    generate_iv Sample.exhausted = (inr iv, h') /\
    1 <= counter_of iv <= 2 ^ 32 - 1 /\
    _iv_counter (self h') = counter_of iv /\
    wf (self h') /\
    (_initialized (self Sample.exhausted) = true ->
     2 ^ 32 - 1 <= _iv_counter (self Sample.exhausted) ->
       fst (_init_iv_buffer Sample.exhausted) = inr tt /\
       _iv_counter (self (snd (_init_iv_buffer Sample.exhausted))) = 0 /\
       prefix_of (_iv_buffer (self (snd (_init_iv_buffer Sample.exhausted))))
         = draw 8 (os Sample.exhausted) /\
       generate_iv Sample.exhausted = generate_iv (snd (_init_iv_buffer Sample.exhausted)) /\
       iv = draw 8 (os Sample.exhausted) ++ struct.pack_BE_I 1).
Proof.
  apply (counter_range_and_exhaustion Sample.exhausted).
  - vm_compute. repeat split; discriminate.
  - reflexivity.
Defined.


(** * Further properties *)

(** ** What a nonce request leaves alone *)

Lemma init_iv_buffer_frame (h : Heap) :
  fst (_init_iv_buffer h) = inr tt /\
  key (self (snd (_init_iv_buffer h))) = key (self h) /\
  config (self (snd (_init_iv_buffer h))) = config (self h).
Proof.
  unfold _init_iv_buffer, bind, get_self, update, urandom, ret.
  change (negb (Py.fits_ssize_t 8)) with false.
  change (8 <? 0) with false.
  destruct (persistent_iv (self h)) eqn:Hp; cbn; rewrite ?Hp; auto.
Qed.

Lemma generate_iv_frame (h : Heap) :
  key (self (snd (generate_iv h))) = key (self h) /\
  config (self (snd (generate_iv h))) = config (self h).
Proof.
  assert (Hbody : forall h1 r, key (self h1) = key (self h) ->
            config (self h1) = config (self h) ->
            (s <- get_self ;;
             if negb (persistent_iv s) then
               random_iv <- urandom 12 ;;
               update (fun s => with_iv_buffer
                         (Py.slice_assign (_iv_buffer s) None None random_iv) s) ;;
               s <- get_self ;;
               ret (_iv_buffer s)
             else
               when (_max_iv_counter s <=? _iv_counter s) _init_iv_buffer ;;
               update (fun s => with_iv_counter (_iv_counter s + 1) s) ;;
               s <- get_self ;;
               buf <- lift (struct.pack_into_BE_I (_iv_buffer s) 8 (_iv_counter s)) ;;
               update (with_iv_buffer buf) ;;
               ret buf) h1 = r ->
            key (self (snd r)) = key (self h) /\ config (self (snd r)) = config (self h)).
  { intros h1 r Hk Hc Er. unfold bind at 1, get_self at 1 in Er.
    destruct (persistent_iv (self h1)); cbn [negb] in Er.
    - unfold bind at 1, when in Er.
      destruct (_max_iv_counter (self h1) <=? _iv_counter (self h1)).
      + destruct (init_iv_buffer_frame h1) as (Hr & Hk1 & Hc1).
        destruct (_init_iv_buffer h1) as [[e|[]] h2]; cbn [fst snd] in *; [discriminate|].
        unfold bind, update, get_self, lift, ret in Er. cbn in Er.
        destruct (struct.pack_into_BE_I _ _ _); subst r; cbn; (split; [congruence|unfold config in *; fields; congruence]).
      + unfold bind, update, get_self, lift, ret in Er. cbn in Er.
        destruct (struct.pack_into_BE_I _ _ _); subst r; cbn; (split; [congruence|unfold config in *; fields; congruence]).
    - unfold bind, update, get_self, urandom, ret in Er.
      change (negb (Py.fits_ssize_t 12)) with false in Er.
      change (12 <? 0) with false in Er. cbn in Er. subst r. cbn. split; [congruence|unfold config in *; fields; congruence]. }
  remember (generate_iv h) as r0 eqn:E0. symmetry in E0.
  unfold generate_iv in E0. unfold bind at 1, get_self at 1 in E0.
  unfold bind at 1, when in E0.
  destruct (_initialized (self h)); cbn [negb] in E0.
  - unfold ret at 1 in E0. eapply Hbody; [reflexivity|reflexivity|exact E0].
  - destruct (init_iv_buffer_frame h) as (Hr & Hk1 & Hc1).
    destruct (_init_iv_buffer h) as [[e|[]] h2]; cbn [fst snd] in *; [discriminate|].
    eapply Hbody; [exact Hk1|exact Hc1|exact E0].
Qed.

Section Frames.

Context {engine : AeadEngine}.

Lemma encrypt_frame (p : bytes) (a : option bytes) (h : Heap) :
  config (self (snd (encrypt p a h))) = config (self h) /\
  (forall k, key (self h) = Some k -> key (self (snd (encrypt p a h))) = Some k).
Proof.
  assert (Hgen : forall h1 r,
            (iv <- generate_iv ;;
             s <- get_self ;;
             match key s with
             | None => raise TypeError
             | Some k =>
                 let aad := if Py.truthy a then a else None in
                 '(ciphertext, tag) <- lift (gcm_encrypt k iv aad p) ;;
                 ret (iv, ciphertext, tag)
             end) h1 = r ->
            config (self (snd r)) = config (self h1) /\
            key (self (snd r)) = key (self h1)).
  { intros h1 r Er. destruct (generate_iv_frame h1) as [Hk Hc].
    unfold bind at 1 in Er. destruct (generate_iv h1) as [[e|iv] h2]; cbn [snd] in *.
    - subst r. auto.
    - unfold bind, get_self, raise, lift, ret in Er.
      destruct (key (self h2)) eqn:K2.
      + destruct (gcm_encrypt _ _ _ _) as [e|[c t]]; subst r; cbn [snd];
          split; congruence.
      + subst r. cbn [snd]. split; congruence. }
  remember (encrypt p a h) as r0 eqn:E0. symmetry in E0.
  unfold encrypt in E0. unfold bind at 1, get_self at 1 in E0.
  unfold bind at 1, when in E0.
  destruct (key (self h)) as [k0|] eqn:K.
  - unfold ret at 1 in E0. destruct (Hgen h r0 E0) as [Hc Hk].
    split; [assumption|]. intros k E. rewrite Hk. congruence.
  - destruct (generate_key_state h) as [_ Hc0].
    unfold bind at 1 in E0. destruct (generate_key h) as [[e|k] h1]; cbn [snd] in *.
    + subst r0. split; [assumption|discriminate].
    + unfold ret at 1 in E0. destruct (Hgen h1 r0 E0) as [Hc Hk].
      split; [congruence|discriminate].
Qed.

Lemma step_frame (c : call) (h : Heap) :
  config (self (snd (step c h))) = config (self h).
Proof.
  destruct c as [|k|p a|iv ct t a]; cbn [step snd].
  - apply generate_key_state.
  - apply set_key_state.
  - destruct (encrypt_frame p a h) as [Hc _].
    now destruct (encrypt p a h) as [[e|[[iv ct] t]] h'].
  - now rewrite decrypt_heap.
Qed.

Lemma run_frame (cs : list call) :
  forall h, config (self (snd (run cs h))) = config (self h).
Proof.
  induction cs as [|c cs IH]; intros h; cbn [run]; [reflexivity|].
  pose proof (step_frame c h) as Hs.
  destruct (step c h) as [used h1]. specialize (IH h1).
  destruct (run cs h1) as [rest h2]. cbn [snd] in *. congruence.
Qed.

(** X10. Whatever sequence of [generate_key], [set_key], [encrypt] and
    [decrypt] calls is made on a newly constructed session, with either
    strategy and whatever fails on the way, the counter stays within
    [0, 2^32 - 1], the IV buffer stays 12 bytes long, and the
    configuration (key size, key bytes, strategy, counter maximum) never
    changes. *)
Theorem reachable_sessions_are_well_formed
  (cs : list call) (key_size : Z) (persistent_iv : bool) (e : Entropy) :
  wf (self (snd (run cs (fresh key_size persistent_iv e)))) /\
  config (self (snd (run cs (fresh key_size persistent_iv e))))
    = (key_size, key_size / 8, persistent_iv, 2 ^ 32 - 1).
Proof.
  split.
  - apply run_wf. apply wf_init.
  - rewrite run_frame. reflexivity.
Qed.

(** X2. [encrypt] never replaces a key that is set, whether it returns
    or raises; on a session without a key and with [key_bytes] between 0
    and 32 it first draws [key_bytes] random bytes as the key, before the
    nonce is made, and that key stays even if the call then raises. *)
Theorem encrypt_key_discipline (p : bytes) (a : option bytes) (h : Heap) :
  (forall k, key (self h) = Some k -> key (self (snd (encrypt p a h))) = Some k) /\
  (key (self h) = None -> 0 <= key_bytes (self h) <= 32 ->
     key (self (snd (encrypt p a h)))
       = Some (draw (Z.to_nat (key_bytes (self h))) (os h))).
Proof.
  split; [apply encrypt_frame|].
  intros K Hkb.
  destruct (generate_key_ok h ltac:(lia)) as (k & h1 & G & K1 & _ & Hk).
  assert (E : encrypt p a h = encrypt p a h1).
  { unfold encrypt. unfold bind at 1, get_self at 1. unfold bind at 1, when.
    rewrite K. unfold bind at 1. rewrite G. unfold ret at 1.
    unfold bind at 4, get_self at 2. unfold bind at 4, when. rewrite K1.
    reflexivity. }
  rewrite E. destruct (encrypt_frame p a h1) as [_ Hkeep].
  rewrite (Hkeep k K1). now rewrite Hk.
Qed.

(** X13. On a session with a key, persistent strategy, below
    exhaustion, every [encrypt] call uses up exactly one counter value,
    also when the engine raises: a nonce that was handed to the engine is
    never handed out again. *)
Theorem encrypt_always_consumes_a_nonce
  (p : bytes) (a : option bytes) (h : Heap) (k : bytes) :
  wf (self h) -> persistent_iv (self h) = true -> key (self h) = Some k ->
  emitted (self h) < 2 ^ 32 - 1 ->
  emitted (self (snd (encrypt p a h))) = emitted (self h) + 1.
Proof.
  intros Hwf Hp K Hlt.
  destruct (generate_iv_next h Hwf Hp Hlt) as (iv & h' & E & _ & _ & Hem & _).
  unfold encrypt, bind, get_self, when, raise, lift, ret. rewrite K, E.
  destruct (key (self h')); [|assumption].
  now destruct (gcm_encrypt _ _ _ _) as [e|[c t]].
Qed.

(** The nonce of a successful [encrypt] comes from [generate_iv]. *)
Lemma encrypt_nonce (p : bytes) (a : option bytes) (h h' : Heap) (iv c t : bytes) :
  encrypt p a h = (inr (iv, c, t), h') ->
  exists h1, nonce_state (self h1) = nonce_state (self h) /\
             config (self h1) = config (self h) /\
             generate_iv h1 = (inr iv, h').
Proof.
  unfold encrypt, bind, get_self, when, raise, lift, ret.
  destruct (key (self h)).
  - destruct (generate_iv h) as [[e|iv1] h1] eqn:G; [discriminate|].
    destruct (key (self h1)) as [k1|]; [|discriminate].
    destruct (gcm_encrypt _ _ _ _) as [e|[c1 t1]]; [discriminate|].
    intros E. inversion E. subst. exists h. auto.
  - destruct (generate_key_state h) as [Hn Hc].
    destruct (generate_key h) as [[e|k0] h0]; [discriminate|]. cbn [snd] in *.
    destruct (generate_iv h0) as [[e|iv1] h1] eqn:G; [discriminate|].
    destruct (key (self h1)) as [k1|]; [|discriminate].
    destruct (gcm_encrypt _ _ _ _) as [e|[c1 t1]]; [discriminate|].
    intros E. inversion E. subst. exists h0. auto.
Qed.

(** X15. Whatever the strategy and the engine, the nonce returned by a
    successful [encrypt] is 12 bytes long, and a successful
    [encrypt_combined] reports 12 as the nonce length and returns a frame
    of 12 bytes more than ciphertext and tag together. *)
Theorem nonce_is_twelve_bytes (p : bytes) (a : option bytes) (h : Heap) :
  wf (self h) ->
  (forall iv c t h', encrypt p a h = (inr (iv, c, t), h') -> len iv = 12) /\
  (forall frame n m h', encrypt_combined p a h = (inr (frame, n, m), h') ->
     n = 12 /\ exists c t, fst (encrypt p a h) = inr (firstn 12 frame, c, t) /\
                           len frame = 12 + len c + len t /\ m = len t).
Proof.
  intros Hwf.
  assert (H12 : forall iv c t h', encrypt p a h = (inr (iv, c, t), h') -> len iv = 12).
  { intros iv c t h' E. apply encrypt_nonce in E. destruct E as (h1 & Hn & Hc & G).
    destruct (generate_iv_ok h1) as (iv1 & h2 & G1 & Hl & _).
    - eapply wf_transfer; eauto.
    - rewrite G in G1. inversion G1. subst. unfold len. now rewrite Hl. }
  split; [exact H12|].
  intros frame n m h'. unfold encrypt_combined, bind.
  destruct (encrypt p a h) as [[e|[[iv c] t]] h1] eqn:E; [discriminate|].
  pose proof (H12 iv c t h1 eq_refl) as Hiv. clear H12.
  unfold ret. rewrite frame_layout. intros F. inversion F. subst.
  split; [assumption|]. exists c, t. cbn [fst].
  assert (Hf : firstn 12 (iv ++ c ++ t) = iv).
  { replace 12%nat with (length iv) by (unfold len in Hiv; lia).
    rewrite firstn_app, Nat.sub_diag, firstn_all. cbn [firstn]. apply app_nil_r. }
  rewrite Hf, !len_app, Hiv. split; [reflexivity|]. split; [lia|reflexivity].
Qed.

End Frames.

Lemma encrypt_key_discipline_witness :
  key (self (snd (encrypt (engine := Reference.engine) [x01] None Sample.keyed)))
    = Some (repeat x00 16) /\
  key (self (snd (encrypt (engine := Reference.engine) [x01] None Sample.unused)))
    = Some (draw (Z.to_nat (key_bytes (self Sample.unused))) (os Sample.unused)).
Proof.
  split.
  - apply (encrypt_key_discipline (engine := Reference.engine) [x01] None Sample.keyed).
    reflexivity.
  - apply (encrypt_key_discipline (engine := Reference.engine) [x01] None Sample.unused).
    + reflexivity.
    + vm_compute. split; discriminate.
Defined.

Lemma encrypt_always_consumes_a_nonce_witness :
  emitted (self (snd (encrypt (engine := Reference.engine) [x01] None Sample.keyed)))
    = emitted (self Sample.keyed) + 1.
Proof.
  apply (encrypt_always_consumes_a_nonce (engine := Reference.engine)
           [x01] None Sample.keyed (repeat x00 16)).
  - vm_compute. repeat split; discriminate.
  - reflexivity.
  - reflexivity.
  - vm_compute. reflexivity.
Defined.

Lemma nonce_is_twelve_bytes_witness :
  exists iv c t h',
    encrypt (engine := Reference.engine) [x01] None Sample.keyed = (inr (iv, c, t), h') /\
    len iv = 12.
Proof.
  assert (W : wf (self Sample.keyed)) by (vm_compute; repeat split; discriminate).
  destruct (nonce_is_twelve_bytes (engine := Reference.engine) [x01] None Sample.keyed W)
    as [H _].
  do 4 eexists. split.
  - vm_compute. reflexivity.
  - eapply H. vm_compute. reflexivity.
Defined.

(** ** Key generation *)

(** X1. With [key_bytes] between 0 and 32, [generate_key] draws
    exactly [key_bytes] bytes from the random source, returns them and
    makes them the session key, replacing any earlier key and leaving the
    nonce state alone; the key it returns is one [set_key] accepts.  With
    a negative [key_bytes] (a negative key size, within the range of a C
    size) it raises [ValueError] and changes nothing. *)
Theorem generate_key_installs_a_key_of_the_configured_size (h : Heap) :
  (0 <= key_bytes (self h) <= 32 ->
     let k := draw (Z.to_nat (key_bytes (self h))) (os h) in
     generate_key h =
       (inr k, {| self := with_key (Some k) (self h);
                  os := advance (Z.to_nat (key_bytes (self h))) (os h) |}) /\
     len k = key_bytes (self h) /\
     nonce_state (self (snd (generate_key h))) = nonce_state (self h) /\
     set_key k (snd (generate_key h)) = (inr tt, snd (generate_key h))) /\
  (- 2 ^ 63 <= key_bytes (self h) < 0 ->
     generate_key h = (inl (ValueError "negative argument not allowed"), h)).
Proof.
  split.
  - intros Hk k.
    assert (Hl : len k = key_bytes (self h)).
    { subst k. unfold len. rewrite draw_length. lia. }
    assert (G : generate_key h =
                (inr k, {| self := with_key (Some k) (self h);
                           os := advance (Z.to_nat (key_bytes (self h))) (os h) |})).
    { unfold generate_key, bind, get_self, urandom, update, ret.
      rewrite (proj2 (fits_ssize_t_iff (key_bytes (self h)))) by lia. cbn [negb].
      destruct (Z.ltb_spec (key_bytes (self h)) 0); [lia|]. reflexivity. }
    split; [exact G|]. split; [exact Hl|]. split; [apply generate_key_state|].
    rewrite G. cbn [snd]. unfold set_key, bind, get_self, raise, update. fields.
    rewrite Hl, Z.eqb_refl. reflexivity.
  - intros Hk. unfold generate_key, bind, get_self, urandom.
    rewrite (proj2 (fits_ssize_t_iff (key_bytes (self h)))) by lia. cbn [negb].
    destruct (Z.ltb_spec (key_bytes (self h)) 0); [reflexivity|lia].
Qed.

Lemma generate_key_installs_a_key_of_the_configured_size_witness :
  (generate_key Sample.started =
     (inr (draw 16 (os Sample.started)),
      {| self := with_key (Some (draw 16 (os Sample.started))) (self Sample.started);
         os := advance 16 (os Sample.started) |}) /\
   len (draw 16 (os Sample.started)) = 16 /\
   nonce_state (self (snd (generate_key Sample.started)))
     = nonce_state (self Sample.started) /\
   set_key (draw 16 (os Sample.started)) (snd (generate_key Sample.started))
     = (inr tt, snd (generate_key Sample.started))) /\
  generate_key (fresh (-8) true Reference.ramp)
    = (inl (ValueError "negative argument not allowed"), fresh (-8) true Reference.ramp).
Proof.
  split.
  - apply (generate_key_installs_a_key_of_the_configured_size Sample.started).
    vm_compute. split; discriminate.
  - apply (generate_key_installs_a_key_of_the_configured_size
             (fresh (-8) true Reference.ramp)).
    vm_compute. split; [discriminate|reflexivity].
Defined.

(** ** Slices of a combined frame *)

Lemma firstn_length_app {A : Type} (l r : list A) : firstn (length l) (l ++ r) = l.
Proof.
  rewrite firstn_app, Nat.sub_diag, firstn_all. cbn [firstn]. apply app_nil_r.
Qed.

Lemma skipn_length_app {A : Type} (l r : list A) : skipn (length l) (l ++ r) = r.
Proof. rewrite skipn_app, Nat.sub_diag, skipn_all. reflexivity. Qed.

(** The three slices taken from a frame that is long enough. *)
Lemma long_frame_slices {A : Type} (frame : list A) (iv_size tag_size : Z) :
  0 <= iv_size -> 0 < tag_size -> iv_size + tag_size <= len frame ->
  Py.slice frame None (Some iv_size) = firstn (Z.to_nat iv_size) frame /\
  Py.slice frame (Some iv_size) (Some (- tag_size)) =
    firstn (Z.to_nat (len frame - tag_size - iv_size)) (skipn (Z.to_nat iv_size) frame) /\
  Py.slice frame (Some (- tag_size)) None =
    skipn (Z.to_nat (len frame - tag_size)) frame.
Proof.
  intros Hi Ht Hlen. unfold Py.slice, Py.bound.
  destruct (Z.ltb_spec iv_size 0); [lia|].
  destruct (Z.ltb_spec (- tag_size) 0); [|lia].
  rewrite (Z.min_l iv_size), Z.max_r by lia.
  replace (len frame + - tag_size) with (len frame - tag_size) by lia.
  split; [|split].
  - rewrite Z.sub_0_r. reflexivity.
  - reflexivity.
  - apply firstn_all2. rewrite length_skipn. unfold len. lia.
Qed.

Lemma frame_slices (iv c t : bytes) :
  t <> [] ->
  Py.slice (iv ++ c ++ t) None (Some (len iv)) = iv /\
  Py.slice (iv ++ c ++ t) (Some (len iv)) (Some (- len t)) = c /\
  Py.slice (iv ++ c ++ t) (Some (- len t)) None = t.
Proof.
  intros Ht.
  assert (0 < len t) by (unfold len; destruct t; [contradiction|cbn [length]; lia]).
  pose proof (len_nonneg iv). pose proof (len_nonneg c).
  destruct (long_frame_slices (iv ++ c ++ t) (len iv) (len t)) as (E1 & E2 & E3);
    try lia.
  { rewrite !len_app. lia. }
  rewrite E1, E2, E3. rewrite !len_app.
  replace (Z.to_nat (len iv)) with (length iv) by (unfold len; lia).
  replace (Z.to_nat (len iv + (len c + len t) - len t - len iv)) with (length c)
    by (unfold len; lia).
  replace (Z.to_nat (len iv + (len c + len t) - len t)) with (length (iv ++ c))
    by (rewrite length_app; unfold len; lia).
  rewrite firstn_length_app, skipn_length_app, firstn_length_app.
  rewrite (app_assoc iv c t), skipn_length_app. auto.
Qed.

Section Decoding.

Context {engine : AeadEngine}.

(** X6. On a frame at least [iv_size + tag_size] bytes long (with
    [tag_size] positive), [decrypt_combined] cuts the frame into three
    pieces that make up the whole frame: the first [iv_size] bytes as
    nonce, the last [tag_size] bytes as tag, and everything in between
    as ciphertext. *)
Theorem decrypt_combined_splits_the_frame
  (frame : bytes) (iv_size tag_size : Z) (a : option bytes) (h : Heap) :
  0 <= iv_size -> 0 < tag_size -> iv_size + tag_size <= len frame ->
  exists iv c t,
    frame = iv ++ c ++ t /\
    len iv = iv_size /\ len t = tag_size /\
    len c = len frame - iv_size - tag_size /\
    decrypt_combined frame iv_size tag_size a h = decrypt iv c t a h.
Proof.
  intros Hi Ht Hlen.
  destruct (long_frame_slices frame iv_size tag_size Hi Ht Hlen) as (E1 & E2 & E3).
  exists (firstn (Z.to_nat iv_size) frame),
         (firstn (Z.to_nat (len frame - tag_size - iv_size))
            (skipn (Z.to_nat iv_size) frame)),
         (skipn (Z.to_nat (len frame - tag_size)) frame).
  unfold decrypt_combined. rewrite E1, E2, E3.
  unfold len in *. rewrite !length_firstn, !length_skipn.
  split; [|repeat split; lia].
  rewrite <- (firstn_skipn (Z.to_nat iv_size) frame) at 1. f_equal.
  rewrite <- (firstn_skipn (Z.to_nat (Z.of_nat (length frame) - tag_size - iv_size))
                (skipn (Z.to_nat iv_size) frame)) at 1.
  f_equal. rewrite skipn_skipn. f_equal. lia.
Qed.

(** X5. With [tag_size = 0] the slice [combined_data[-0:]] is the whole
    frame and [combined_data[iv_size:-0]] is empty: [decrypt_combined]
    calls [decrypt] with the entire frame as tag and no ciphertext,
    whatever the frame holds. *)
Theorem decrypt_combined_with_zero_tag_size
  (frame : bytes) (iv_size : Z) (a : option bytes) (h : Heap) :
  0 <= iv_size ->
  decrypt_combined frame iv_size 0 a h =
    decrypt (firstn (Z.to_nat iv_size) frame) [] frame a h.
Proof.
  intros Hi. pose proof (len_nonneg frame) as Hn.
  unfold decrypt_combined, Py.slice, Py.bound.
  change (- 0) with 0. change (0 <? 0) with false.
  destruct (Z.ltb_spec iv_size 0); [lia|].
  rewrite (Z.min_l 0) by lia.
  replace (Z.to_nat (0 - Z.min iv_size (len frame))) with 0%nat by lia.
  rewrite !Z.sub_0_r. change (Z.to_nat 0) with 0%nat. cbn [skipn firstn].
  unfold len. rewrite Nat2Z.id, firstn_all.
  f_equal. destruct (Z.le_ge_cases iv_size (Z.of_nat (length frame))).
  - now rewrite Z.min_l.
  - rewrite Z.min_r, Nat2Z.id, firstn_all by lia.
    symmetry. apply firstn_all2. lia.
Qed.

End Decoding.

Lemma decrypt_combined_splits_the_frame_witness :
  exists iv c t,
    repeat x00 30 = iv ++ c ++ t /\
    len iv = 12 /\ len t = 16 /\ len c = len (repeat x00 30) - 12 - 16 /\
    decrypt_combined (engine := Reference.engine) (repeat x00 30) 12 16 None Sample.keyed
      = decrypt (engine := Reference.engine) iv c t None Sample.keyed.
Proof.
  apply (decrypt_combined_splits_the_frame (engine := Reference.engine)
           (repeat x00 30) 12 16 None Sample.keyed).
  - lia.
  - lia.
  - vm_compute. discriminate.
Defined.

Lemma decrypt_combined_with_zero_tag_size_witness :
  decrypt_combined (engine := Reference.engine) (repeat x00 30) 12 0 None Sample.keyed
    = decrypt (engine := Reference.engine)
        (firstn 12 (repeat x00 30)) [] (repeat x00 30) None Sample.keyed.
Proof.
  apply (decrypt_combined_with_zero_tag_size (engine := Reference.engine)
           (repeat x00 30) 12 None Sample.keyed).
  lia.
Defined.

(** ** Round trips under the engine laws *)

Lemma reference_tag_length (k iv : bytes) (aad : option bytes) (p c t : bytes) :
  Reference.enc k iv aad p = inr (c, t) -> len t = 16.
Proof.
  unfold Reference.enc.
  destruct (Reference.valid_key k); cbn [negb]; [|discriminate].
  destruct (Reference.valid_iv iv); cbn [negb]; [|discriminate].
  intros E. inversion E. reflexivity.
Qed.

Section Laws.

Context {engine : AeadEngine}.

Hypothesis gcm_round_trip :
  forall k iv aad p c t,
    gcm_encrypt k iv aad p = inr (c, t) -> gcm_decrypt k iv t aad c = inr p.

Hypothesis gcm_accepts :
  forall k iv aad p,
    In (len k) [16; 24; 32] -> len iv = 12 ->
    exists c t, gcm_encrypt k iv aad p = inr (c, t).

(** The engine's tags are 16 bytes long. *)
Hypothesis gcm_tag_length :
  forall k iv aad p c t, gcm_encrypt k iv aad p = inr (c, t) -> len t = 16.

Lemma encrypt_then_decrypt (h : Heap) (k p : bytes) (a : option bytes) :
  wf (self h) -> key (self h) = Some k -> In (len k) [16; 24; 32] ->
  exists iv c t h',
    encrypt p a h = (inr (iv, c, t), h') /\
    decrypt iv c t a h' = (inr p, h') /\
    len iv = 12 /\ key (self h') = Some k /\ wf (self h') /\
    gcm_encrypt k iv (if Py.truthy a then a else None) p = inr (c, t).
Proof.
  intros Hwf K Hk.
  destruct (generate_iv_ok h Hwf) as (iv & h' & G & Hl & Hwf' & _ & K').
  rewrite K in K'.
  assert (Hiv : len iv = 12) by (unfold len; now rewrite Hl).
  destruct (gcm_accepts k iv (if Py.truthy a then a else None) p Hk Hiv) as (c & t & E).
  exists iv, c, t, h'. split; [|split; [|auto]].
  - unfold encrypt, bind, get_self, when, lift, ret. rewrite K.
    rewrite G, K', E. reflexivity.
  - rewrite (decrypt_with_key _ _ _ _ _ k K').
    now rewrite (gcm_round_trip _ _ _ _ _ _ E).
Qed.

(** X3. On a newly constructed session of key size 128, 192 or 256,
    with either strategy, a first [encrypt] generates the key by itself
    (the first [key_size / 8] random bytes), returns a triple, and
    [decrypt] of that triple on the same session returns the plaintext. *)
Theorem first_encrypt_generates_the_key_and_round_trips
  (key_size : Z) (persistent_iv : bool) (e : Entropy) (p : bytes) (a : option bytes) :
  In key_size [128; 192; 256] ->
  exists iv c t h',
    encrypt p a (fresh key_size persistent_iv e) = (inr (iv, c, t), h') /\
    key (self h') = Some (draw (Z.to_nat (key_size / 8)) e) /\
    decrypt iv c t a h' = (inr p, h').
Proof.
  intros Hks. set (h := fresh key_size persistent_iv e).
  assert (Hkb : In (key_bytes (self h)) [16; 24; 32]).
  { subst h. unfold fresh, __init__. fields.
    destruct Hks as [<-|[<-|[<-|[]]]]; cbn; auto. }
  assert (Hpos : 0 <= key_bytes (self h) <= 2 ^ 63 - 1).
  { destruct Hkb as [<-|[<-|[<-|[]]]]; lia. }
  destruct (generate_key_ok h Hpos) as (k & h1 & G & K1 & Hl & Hk).
  destruct (generate_key_state h) as [Hn Hc]. rewrite G in Hn, Hc. cbn [snd] in Hn, Hc.
  assert (Hwf1 : wf (self h1)).
  { eapply wf_transfer; eauto. subst h. apply wf_init. }
  destruct (encrypt_then_decrypt h1 k p a Hwf1 K1) as (iv & c & t & h' & E & D & _ & K' & _).
  { now rewrite Hl. }
  exists iv, c, t, h'. split; [|split; [|exact D]].
  - rewrite <- E. unfold encrypt. unfold bind at 1, get_self at 1. unfold bind at 1, when.
    change (key (self h)) with (@None bytes). unfold bind at 1. rewrite G.
    unfold ret at 1. unfold bind at 4, get_self at 2. unfold bind at 4, when.
    rewrite K1. reflexivity.
  - rewrite K', Hk. reflexivity.
Qed.

(** X4. On a session with an AES key, [encrypt_combined] returns a
    frame together with the sizes 12 and 16, and [decrypt_combined] of
    that frame with these sizes (its defaults) and the same associated
    data returns the plaintext. *)
Theorem decrypt_combined_encrypt_combined_round_trip
  (h : Heap) (k p : bytes) (a : option bytes) :
  wf (self h) -> key (self h) = Some k -> In (len k) [16; 24; 32] ->
  exists frame h',
    encrypt_combined p a h = (inr (frame, 12, 16), h') /\
    decrypt_combined frame 12 16 a h' = (inr p, h').
Proof.
  intros Hwf K Hk.
  destruct (encrypt_then_decrypt h k p a Hwf K Hk)
    as (iv & c & t & h' & E & D & Hiv & _ & _ & G).
  pose proof (gcm_tag_length _ _ _ _ _ _ G) as Ht.
  exists (iv ++ c ++ t), h'. split.
  - unfold encrypt_combined, bind. rewrite E. unfold ret.
    now rewrite frame_layout, Hiv, Ht.
  - destruct (frame_slices iv c t) as (E1 & E2 & E3).
    { intros ->. discriminate Ht. }
    unfold decrypt_combined. rewrite <- Hiv, <- Ht, E1, E2, E3. exact D.
Qed.

(** X11. The stand-alone [encrypt] of [aes_gcm.py] returns the key it
    used with a fresh 12-byte nonce, the ciphertext and the tag, and the
    stand-alone [decrypt] of these returns the plaintext.  A key that is
    passed in is returned as it is; without one, the first 32 random
    bytes become the key and the next 12 the nonce. *)
Theorem stand_alone_round_trip
  (p : bytes) (key : option bytes) (a : option bytes) (h : Heap) :
  (forall k, key = Some k -> In (len k) [16; 24; 32]) ->
  exists k iv c t h',
    aes_gcm.encrypt p key a h = (inr (k, iv, c, t), h') /\
    aes_gcm.decrypt iv c t k a h' = (inr p, h') /\
    self h' = self h /\
    match key with
    | Some k0 => k = k0 /\ iv = draw 12 (os h)
    | None => k = draw 32 (os h) /\ iv = draw 12 (advance 32 (os h))
    end.
Proof.
  intros Hkey. unfold aes_gcm.encrypt, aes_gcm.decrypt.
  destruct key as [k0|].
  - destruct (gcm_accepts k0 (draw 12 (os h)) (if Py.truthy a then a else None) p)
      as (c & t & E).
    { now apply Hkey. }
    { unfold len. now rewrite draw_length. }
    exists k0, (draw 12 (os h)), c, t.
    eexists. unfold bind, urandom, lift, ret.
    change (negb (Py.fits_ssize_t 12)) with false.
    change (12 <? 0) with false. change (Z.to_nat 12) with 12%nat. cbn [os self].
    rewrite E. split; [reflexivity|].
    rewrite (gcm_round_trip _ _ _ _ _ _ E). auto.
  - destruct (gcm_accepts (draw 32 (os h)) (draw 12 (advance 32 (os h)))
                (if Py.truthy a then a else None) p) as (c & t & E).
    { unfold len. rewrite draw_length. cbn. auto. }
    { unfold len. now rewrite draw_length. }
    exists (draw 32 (os h)), (draw 12 (advance 32 (os h))), c, t.
    eexists. unfold bind, urandom, lift, ret.
    change (negb (Py.fits_ssize_t 12)) with false.
    change (negb (Py.fits_ssize_t 32)) with false.
    change (12 <? 0) with false. change (32 <? 0) with false.
    change (Z.to_nat 12) with 12%nat. change (Z.to_nat 32) with 32%nat. cbn [os self].
    rewrite E. split; [reflexivity|].
    rewrite (gcm_round_trip _ _ _ _ _ _ E). auto.
Qed.

(** X12. The session and the stand-alone functions understand each
    other: what a session's [encrypt] returns is decrypted by the
    stand-alone [decrypt] under the session's key, and what the
    stand-alone [encrypt] returns under a key [k] is decrypted by a
    session once [set_key k] has been called on it. *)
Theorem session_and_stand_alone_functions_interoperate
  (p : bytes) (a : option bytes) (h : Heap) :
  (forall iv c t h',
     encrypt p a h = (inr (iv, c, t), h') ->
     exists k, key (self h') = Some k /\
               aes_gcm.decrypt iv c t k a h' = (inr p, h')) /\
  (forall k k' iv c t h',
     aes_gcm.encrypt p (Some k) a h = (inr (k', iv, c, t), h') ->
     len k = key_bytes (self h') ->
     fst ((set_key k ;; decrypt iv c t a) h') = inr p).
Proof.
  split.
  - intros iv c t h' E. apply encrypt_inr in E. destruct E as (k & K & E).
    exists k. split; [assumption|].
    unfold aes_gcm.decrypt, lift. now rewrite (gcm_round_trip _ _ _ _ _ _ E).
  - intros k k' iv c t h'. unfold aes_gcm.encrypt, bind, urandom, lift, ret.
    change (negb (Py.fits_ssize_t 12)) with false.
    change (12 <? 0) with false. cbn [os self].
    destruct (gcm_encrypt _ _ _ _) as [e|[c1 t1]] eqn:E; [discriminate|].
    intros F Hl. inversion F. subst.
    unfold set_key, bind, get_self, raise, update. fields.
    rewrite Hl, Z.eqb_refl. cbn [negb].
    unfold decrypt, bind, get_self, lift. fields.
    now rewrite (gcm_round_trip _ _ _ _ _ _ E).
Qed.

End Laws.

Lemma first_encrypt_generates_the_key_and_round_trips_witness :
  exists iv c t h',
    encrypt (engine := Reference.engine) [x01; x02] None (fresh 192 false Reference.ramp)
      = (inr (iv, c, t), h') /\
    key (self h') = Some (draw (Z.to_nat (192 / 8)) Reference.ramp) /\
    decrypt (engine := Reference.engine) iv c t None h' = (inr [x01; x02], h').
Proof.
  apply (first_encrypt_generates_the_key_and_round_trips (engine := Reference.engine)
           reference_round_trip reference_accepts 192 false Reference.ramp [x01; x02] None).
  cbn. auto.
Defined.

Lemma decrypt_combined_encrypt_combined_round_trip_witness :
  exists frame h',
    encrypt_combined (engine := Reference.engine) [x01; x02] (Some [x05]) Sample.keyed
      = (inr (frame, 12, 16), h') /\
    decrypt_combined (engine := Reference.engine) frame 12 16 (Some [x05]) h'
      = (inr [x01; x02], h').
Proof.
  apply (decrypt_combined_encrypt_combined_round_trip (engine := Reference.engine)
           reference_round_trip reference_accepts reference_tag_length
           Sample.keyed (repeat x00 16)).
  - vm_compute. repeat split; discriminate.
  - reflexivity.
  - vm_compute. left. reflexivity.
Defined.

Lemma stand_alone_round_trip_witness :
  exists k iv c t h',
    aes_gcm.encrypt (engine := Reference.engine) [x01; x02] None (Some [x05]) Sample.unused
      = (inr (k, iv, c, t), h') /\
    aes_gcm.decrypt (engine := Reference.engine) iv c t k (Some [x05]) h'
      = (inr [x01; x02], h') /\
    self h' = self Sample.unused /\
    k = draw 32 (os Sample.unused) /\
    iv = draw 12 (advance 32 (os Sample.unused)).
Proof.
  apply (stand_alone_round_trip (engine := Reference.engine)
           reference_round_trip reference_accepts [x01; x02] None (Some [x05])
           Sample.unused).
  intros k E. discriminate E.
Defined.

Lemma session_and_stand_alone_functions_interoperate_witness :
  exists iv c t h',
    aes_gcm.encrypt (engine := Reference.engine) [x01; x02] (Some (repeat x00 16)) None
      Sample.unused = (inr (repeat x00 16, iv, c, t), h') /\
    fst ((set_key (repeat x00 16) ;; decrypt (engine := Reference.engine) iv c t None) h')
      = inr [x01; x02].
Proof.
  do 4 eexists. split.
  - vm_compute. reflexivity.
  - eapply (proj2 (session_and_stand_alone_functions_interoperate
                     (engine := Reference.engine) reference_round_trip
                     [x01; x02] None Sample.unused)).
    + vm_compute. reflexivity.
    + reflexivity.
Defined.

(** ** Randomness consumed by nonce requests *)

Lemma advance_advance (a b : nat) (e : Entropy) :
  advance a (advance b e) = advance (b + a) e.
Proof. unfold advance. cbn [source cursor]. f_equal. lia. Qed.

Lemma draw_advance_0 (n : nat) (e : Entropy) : draw n (advance 0 e) = draw n e.
Proof. unfold draw, advance. cbn [source cursor]. now rewrite Nat.add_0_r. Qed.

Lemma calls_generate_iv_random (n : nat) :
  forall h : Heap,
    persistent_iv (self h) = false ->
    exists h',
      calls n generate_iv h =
        (inr (map (fun i => draw 12 (advance (12 * i) (os h))) (seq 0 n)), h') /\
      source (os h') = source (os h) /\
      cursor (os h') = (cursor (os h) + 12 * n)%nat /\
      _iv_counter (self h') = _iv_counter (self h) /\
      key (self h') = key (self h) /\
      persistent_iv (self h') = false.
Proof.
  induction n as [|n IH]; intros h Hp.
  - exists h. cbn [calls seq map]. unfold ret. repeat split; try assumption; lia.
  - pose proof (generate_iv_random h Hp) as E.
    match type of E with _ = (_, ?x) => set (h1 := x) in * end.
    destruct (IH h1) as (h' & En & Hs & Hcur & Hctr & Hk & Hp'); [subst h1; now fields|].
    exists h'. split.
    + cbn [calls]. unfold bind at 1. rewrite E. unfold bind at 1. rewrite En.
      unfold ret. f_equal. f_equal.
      cbn [seq map]. rewrite <- seq_shift, map_map. f_equal.
      * change (12 * 0)%nat with 0%nat. now rewrite draw_advance_0.
      * apply map_ext. intros i. subst h1. cbn [os].
        rewrite advance_advance. do 2 f_equal. lia.
    + subst h1. fields. unfold advance in *. cbn [source cursor] in *.
      repeat split; try assumption. lia.
Qed.

(** X7. Under the random strategy, [n] nonce requests never fail,
    whatever [n] and whatever the session's state: the [i]-th nonce is the
    [i]-th block of 12 bytes of the random source, [12 * n] random bytes
    are consumed, and neither the counter nor the key is touched, so the
    counter is never exhausted. *)
Theorem random_strategy_nonces (n : nat) (h : Heap) :
  persistent_iv (self h) = false ->
  fst (calls n generate_iv h) =
    inr (map (fun i => draw 12 (advance (12 * i) (os h))) (seq 0 n)) /\
  cursor (os (snd (calls n generate_iv h))) = (cursor (os h) + 12 * n)%nat /\
  _iv_counter (self (snd (calls n generate_iv h))) = _iv_counter (self h) /\
  key (self (snd (calls n generate_iv h))) = key (self h).
Proof.
  intros Hp.
  destruct (calls_generate_iv_random n h Hp) as (h' & E & _ & Hcur & Hctr & Hk & _).
  rewrite E. cbn [fst snd]. auto.
Qed.

Lemma random_strategy_nonces_witness :
  fst (calls 2 generate_iv (fresh 128 false Reference.ramp)) =
    inr [ [x00; x01; x02; x03; x04; x05; x06; x07; x08; x09; x0a; x0b];
          [x0c; x0d; x0e; x0f; x10; x11; x12; x13; x14; x15; x16; x17] ].
Proof.
  apply (random_strategy_nonces 2 (fresh 128 false Reference.ramp)).
  reflexivity.
Defined.

(** X8. Under the persistent strategy, any number [N >= 1] of nonce
    requests below [2^32] on a newly constructed session consumes exactly
    8 bytes of randomness, all at the first request; and on an
    initialised session below exhaustion requests consume none. *)
Theorem persistent_strategy_draws_eight_bytes
  (key_size : Z) (e : Entropy) (N : nat) :
  (0 < N)%nat -> Z.of_nat N < 2 ^ 32 ->
  os (snd (calls N generate_iv (fresh key_size true e))) = advance 8 e /\
  (forall n, Z.of_nat N + Z.of_nat n < 2 ^ 32 ->
     os (snd (calls n generate_iv (snd (calls N generate_iv (fresh key_size true e)))))
       = advance 8 e).
Proof.
  intros Hpos HN.
  destruct (calls_generate_iv_fresh key_size e N HN) as (h & E & Hwf & Hp & _ & Hlast).
  destruct (Hlast Hpos) as (Hini & Hctr & Hos).
  rewrite E. cbn [snd]. split; [assumption|].
  intros n Hn.
  destruct (calls_generate_iv n h Hwf Hp Hini) as (h' & En & _ & _ & _ & Hos' & _);
    [lia|].
  rewrite En. cbn [snd]. congruence.
Qed.

Lemma persistent_strategy_draws_eight_bytes_witness :
  os (snd (calls 3 generate_iv (fresh 128 true Reference.ramp))) = advance 8 Reference.ramp.
Proof.
  apply (persistent_strategy_draws_eight_bytes 128 Reference.ramp 3); lia.
Defined.

(** X9. After the [2^32 - 1] nonces of a first counter run on a new
    session, the next request draws the next 8 random bytes as prefix and
    returns them followed by the encoding of 1.  This nonce is one of
    the earlier nonces exactly when the new prefix equals the old one. *)
Theorem nonce_after_exhaustion (key_size : Z) (e : Entropy) :
  exists nonces h,
    calls (Z.to_nat (2 ^ 32 - 1)) generate_iv (fresh key_size true e) = (inr nonces, h) /\
    fst (generate_iv h) = inr (draw 8 (advance 8 e) ++ struct.pack_BE_I 1) /\
    (In (draw 8 (advance 8 e) ++ struct.pack_BE_I 1) nonces
       <-> draw 8 (advance 8 e) = draw 8 e).
Proof.
  destruct (calls_generate_iv_fresh key_size e (Z.to_nat (2 ^ 32 - 1)))
    as (h & E & Hwf & Hp & _ & Hlast); [lia|].
  destruct Hlast as (Hini & Hctr & Hos); [lia|].
  do 2 eexists. split; [exact E|]. split.
  - pose proof (generate_iv_persistent h Hwf Hp) as G. cbv zeta in G.
    assert (R : reinit_due (self h) = true).
    { unfold reinit_due. rewrite Hini. cbn [negb orb]. destruct Hwf as (Hmx & _).
      apply Z.leb_le. lia. }
    rewrite R in G. rewrite G, Hos. reflexivity.
  - split.
    + intros Hin. apply in_map_iff in Hin. destruct Hin as (i & Ei & _).
      apply (f_equal prefix_of) in Ei.
      rewrite !prefix_of_app in Ei by apply draw_length. now symmetry.
    + intros Epre. apply in_map_iff. exists 0%nat. split.
      * now rewrite Epre.
      * apply in_seq. lia.
Qed.

(** ** Batches of encryptions *)

Section Batches.

Context {engine : AeadEngine}.

Hypothesis gcm_accepts :
  forall k iv aad p,
    In (len k) [16; 24; 32] -> len iv = 12 ->
    exists c t, gcm_encrypt k iv aad p = inr (c, t).

Lemma encrypt_persistent_ok (p : bytes) (a : option bytes) (h : Heap) (k : bytes) :
  wf (self h) -> persistent_iv (self h) = true ->
  key (self h) = Some k -> In (len k) [16; 24; 32] ->
  emitted (self h) < 2 ^ 32 - 1 ->
  exists c t h',
    encrypt p a h =
      (inr (next_prefix h ++ struct.pack_BE_I (emitted (self h) + 1), c, t), h') /\
    wf (self h') /\ persistent_iv (self h') = true /\ key (self h') = Some k /\
    _initialized (self h') = true /\
    _iv_counter (self h') = emitted (self h) + 1 /\
    prefix_of (_iv_buffer (self h')) = next_prefix h.
Proof.
  intros Hwf Hp K Hk Hlt.
  pose proof (generate_iv_persistent h Hwf Hp) as G. cbv zeta in G.
  destruct (generate_iv_ok h Hwf) as (iv & h' & G' & Hl & Hwf' & Hc' & K').
  rewrite K in K'.
  assert (Hp' : persistent_iv (self h') = true)
    by (unfold config in Hc'; inversion Hc'; congruence).
  assert (Hiv : iv = next_prefix h ++ struct.pack_BE_I (emitted (self h) + 1) /\
                _initialized (self h') = true /\
                _iv_counter (self h') = emitted (self h) + 1 /\
                prefix_of (_iv_buffer (self h')) = next_prefix h).
  { rewrite G in G'. clear G. unfold next_prefix, emitted, reinit_due in *.
    destruct Hwf as (Hmx & Hc & Hb).
    destruct (_initialized (self h)) eqn:Hini; cbn [negb orb] in *.
    - destruct (Z.leb_spec (_max_iv_counter (self h)) (_iv_counter (self h))); [lia|].
      pose proof (f_equal snd G') as Eh. cbn [snd] in Eh.
      assert (Eiv : firstn 8 (_iv_buffer (self h))
                      ++ struct.pack_BE_I (_iv_counter (self h) + 1) = iv)
        by (pose proof (f_equal fst G') as T; cbn [fst] in T; congruence).
      rewrite <- Eh, <- Eiv. fields.
      rewrite (prefix_of_app (firstn 8 (_iv_buffer (self h))))
        by (rewrite length_firstn; lia).
      auto.
    - pose proof (f_equal snd G') as Eh. cbn [snd] in Eh.
      assert (Eiv : draw 8 (os h) ++ struct.pack_BE_I (0 + 1) = iv)
        by (pose proof (f_equal fst G') as T; cbn [fst] in T; congruence).
      rewrite <- Eh, <- Eiv. fields.
      rewrite prefix_of_app by apply draw_length. auto. }
  destruct Hiv as (Eiv & Hini' & Hctr' & Hpre').
  destruct (gcm_accepts k iv (if Py.truthy a then a else None) p Hk) as (c & t & E).
  { unfold len. now rewrite Hl. }
  exists c, t, h'. split.
  - unfold encrypt, bind, get_self, when, lift, ret. rewrite K.
    rewrite G', K', E, Eiv. reflexivity.
  - auto 10.
Qed.

Lemma for_each_encrypt (ps : list bytes) (a : option bytes) :
  forall (h : Heap) (k : bytes),
    wf (self h) -> persistent_iv (self h) = true ->
    key (self h) = Some k -> In (len k) [16; 24; 32] ->
    emitted (self h) + len ps <= 2 ^ 32 - 1 ->
    exists rs h',
      for_each ps (fun p => encrypt p a) h = (inr rs, h') /\
      map nonce_of rs =
        map (fun i => next_prefix h
                        ++ struct.pack_BE_I (emitted (self h) + 1 + Z.of_nat i))
          (seq 0 (length ps)) /\
      emitted (self h') = emitted (self h) + len ps /\
      key (self h') = Some k.
Proof.
  induction ps as [|p ps IH]; intros h k Hwf Hp K Hk Hle.
  - exists [], h. cbn [for_each length seq map]. unfold ret, len. cbn [length].
    repeat split; try assumption. lia.
  - unfold len in Hle. cbn [length] in Hle.
    destruct (encrypt_persistent_ok p a h k Hwf Hp K Hk ltac:(lia))
      as (c & t & h1 & E & Hwf1 & Hp1 & K1 & Hini1 & Hctr1 & Hpre1).
    assert (Hem1 : emitted (self h1) = emitted (self h) + 1)
      by (unfold emitted at 1; now rewrite Hini1).
    destruct (IH h1 k Hwf1 Hp1 K1 Hk) as (rs & h' & En & Hn & Hem' & K').
    { unfold len. lia. }
    exists ((next_prefix h ++ struct.pack_BE_I (emitted (self h) + 1), c, t) :: rs), h'.
    split; [|split; [|split]].
    + cbn [for_each]. unfold bind at 1. rewrite E. unfold bind at 1. rewrite En.
      reflexivity.
    + cbn [map length seq nonce_of fst]. rewrite Hn, <- seq_shift, map_map. f_equal.
      * now rewrite Z.add_0_r.
      * apply map_ext_in. intros i Hi. apply in_seq in Hi.
        assert (Hnp : next_prefix h1 = next_prefix h).
        { unfold next_prefix at 1, reinit_due. rewrite Hini1. cbn [negb orb].
          destruct Hwf1 as (Hmx1 & _).
          destruct (Z.leb_spec (_max_iv_counter (self h1)) (_iv_counter (self h1)));
            [lia|assumption]. }
        rewrite Hnp, Hem1. do 2 f_equal. lia.
    + rewrite Hem'. unfold len. cbn [length]. lia.
    + assumption.
Qed.

(** X14. A loop of [encrypt] calls over any list of plaintexts, on a
    persistent session with an AES key and room left in the counter,
    runs to the end without raising; the nonces it uses are the prefix
    followed by consecutive counter values, hence pairwise distinct, and
    the counter ends up advanced by the number of plaintexts. *)
Theorem batch_of_encryptions
  (ps : list bytes) (a : option bytes) (h : Heap) (k : bytes) :
  wf (self h) -> persistent_iv (self h) = true ->
  key (self h) = Some k -> In (len k) [16; 24; 32] ->
  emitted (self h) + len ps <= 2 ^ 32 - 1 ->
  exists rs h',
    for_each ps (fun p => encrypt p a) h = (inr rs, h') /\
    length rs = length ps /\
    map nonce_of rs =
      map (fun i => next_prefix h
                      ++ struct.pack_BE_I (emitted (self h) + 1 + Z.of_nat i))
        (seq 0 (length ps)) /\
    NoDup (map nonce_of rs) /\
    emitted (self h') = emitted (self h) + len ps.
Proof.
  intros Hwf Hp K Hk Hle.
  destruct (for_each_encrypt ps a h k Hwf Hp K Hk Hle) as (rs & h' & E & Hn & Hem & _).
  exists rs, h'. split; [assumption|].
  assert (He : 0 <= emitted (self h)).
  { unfold emitted. destruct Hwf as (_ & Hc & _).
    destruct (_initialized (self h)); lia. }
  split; [|split; [assumption|split; [|assumption]]].
  - rewrite <- (length_map nonce_of), Hn, length_map, length_seq. reflexivity.
  - rewrite Hn. apply nonces_NoDup; unfold len in Hle; lia.
Qed.

End Batches.

Lemma batch_of_encryptions_witness :
  exists rs h',
    for_each [[x01]; []; [x02; x03]]
      (fun p => encrypt (engine := Reference.engine) p None) Sample.keyed = (inr rs, h') /\
    length rs = 3%nat /\
    map nonce_of rs =
      map (fun i => next_prefix Sample.keyed
                      ++ struct.pack_BE_I (emitted (self Sample.keyed) + 1 + Z.of_nat i))
        (seq 0 3) /\
    NoDup (map nonce_of rs) /\
    emitted (self h') = emitted (self Sample.keyed) + 3.
Proof.
  apply (batch_of_encryptions (engine := Reference.engine) reference_accepts
           [[x01]; []; [x02; x03]] None Sample.keyed (repeat x00 16)).
  - vm_compute. repeat split; discriminate.
  - reflexivity.
  - reflexivity.
  - vm_compute. left. reflexivity.
  - vm_compute. discriminate.
Defined.
